(** * Boost.URL (madmongo1/url): the component index, the host accessor
      and the address grammars

    The development follows the layout of the repository:

    - [SizeT]: [std::size_t] arithmetic, 64 bits with wrap-around;
    - [urls] and [Parts]: [urls::host_type] and [detail::parts] of
      [include/boost/url/detail/parts.hpp], the offset table that locates
      the eight components of a URL inside one buffer, with its mutators
      [clear], [resize] and [split];
    - [Chars] and [Url]: the percent-decoder and the accessor [url::host]
      of [include/boost/url/url.hpp];
    - [IPv4] and [IPv6]: the address matchers exercised by
      [test/rfc/ip_v4address.cpp] and [test/rfc/ipv6_address_bnf.cpp];
    - [Examples]: the concrete indexes and URLs the statements are
      evaluated at.

    The definitions come first, the properties after them. *)

From Stdlib Require Import ZArith List Ascii String Bool Lia.
Import ListNotations.

Local Open Scope Z_scope.

(** ** [std::size_t] *)

Module SizeT.

Definition modulus : Z := 2 ^ 64.

(** Every result of unsigned arithmetic is reduced modulo [2^64]. *)
Definition wrap (z : Z) : Z := z mod modulus.

Definition add (a b : Z) : Z := wrap (a + b).
Definition sub (a b : Z) : Z := wrap (a - b).

Definition in_range (z : Z) : Prop := 0 <= z < modulus.

End SizeT.

(** ** Fixed-size arrays

    A C array of [n] elements is a list rebuilt index by index over
    [0 .. n-1], so a loop over the indices keeps the size it has in the
    source. Reads use [nth] with default [0]. *)

Definition tabulate {A : Type} (n : nat) (f : nat -> A) : list A :=
  map f (seq 0 n).

(** ** [urls::host_type]

    The enumeration is declared in [host_type.hpp]; its five values are the
    ones [url.hpp] and the data model name. *)

Module urls.

Inductive host_type : Type :=
  | none | name | ipv4 | ipv6 | ipvfuture.

Definition host_type_eqb (a b : host_type) : bool :=
  match a, b with
  | none, none | name, name | ipv4, ipv4 | ipv6, ipv6
  | ipvfuture, ipvfuture => true
  | _, _ => false
  end.

End urls.

(** ** [detail::parts] *)

Module Parts.

(** [enum part] *)
Definition id_scheme : nat := 0.
Definition id_user : nat := 1.
Definition id_pass : nat := 2.
Definition id_host : nat := 3.
Definition id_port : nat := 4.
Definition id_path : nat := 5.
Definition id_query : nat := 6.
Definition id_frag : nat := 7.
Definition id_end : nat := 8.

(** [struct parts]: [offset] has [id_end + 1] entries, [decoded] has
    [id_end], [ip_addr] has 16. *)
Record parts : Type := mk_parts {
  offset : list Z;
  decoded : list Z;
  ip_addr : list Z;
  nseg : Z;
  nparam : Z;
  port_number : Z;
  host_type : urls.host_type
}.

Definition off (p : parts) (i : nat) : Z := nth i (offset p) 0.
Definition decoded_at (p : parts) (i : nat) : Z := nth i (decoded p) 0.

(** [parts::clear]: the host type and the [id_end + 1] offsets are reset.
    The loop over [decoded] is commented out in the source, so that array
    and the remaining members are carried over as they are. *)
Definition clear (p : parts) : parts :=
  {| offset := tabulate (id_end + 1) (fun _ => 0);
     decoded := decoded p;
     ip_addr := ip_addr p;
     nseg := nseg p;
     nparam := nparam p;
     port_number := port_number p;
     host_type := urls.none |}.

(** What the three arrays hold before the constructor runs: they have no
    default member initializer, so the constructor finds them with
    whatever the storage contained. *)
Record storage : Type := mk_storage {
  raw_offset : list Z;
  raw_decoded : list Z;
  raw_ip_addr : list Z
}.

(** [parts::parts()]: the default member initializers ([nseg], [nparam],
    [port_number], [host_type]) and then [clear()]. *)
Definition ctor (m : storage) : parts :=
  clear {| offset := raw_offset m;
           decoded := raw_decoded m;
           ip_addr := raw_ip_addr m;
           nseg := 0;
           nparam := 0;
           port_number := 0;
           host_type := urls.none |}.

(** [parts::length(int id)] *)
Definition length (p : parts) (id : nat) : Z :=
  SizeT.sub (off p (id + 1)) (off p id).

(** [parts::length(int begin, int end)] *)
Definition length_range (p : parts) (b e : nat) : Z :=
  SizeT.sub (off p e) (off p b).

(** A [string_view] of [n] bytes starting [start] bytes into the buffer. *)
Definition view (s : list ascii) (start n : Z) : list ascii :=
  firstn (Z.to_nat n) (skipn (Z.to_nat start) s).

(** [parts::get(int id, char const* s)] *)
Definition get (p : parts) (id : nat) (s : list ascii) : list ascii :=
  view s (off p id) (SizeT.sub (off p (id + 1)) (off p id)).

(** [parts::get(int begin, int end, char const* s)] *)
Definition get_range (p : parts) (b e : nat) (s : list ascii) : list ascii :=
  view s (off p b) (SizeT.sub (off p e) (off p b)).

(** [parts::resize]: every offset after [id] moves by [n - n0]. *)
Definition resize (p : parts) (id : nat) (n : Z) : parts :=
  let n0 := length p id in
  let d := SizeT.sub n n0 in
  {| offset := tabulate (id_end + 1)
                 (fun i => if (id + 1 <=? i)%nat
                           then SizeT.add (off p i) d
                           else off p i);
     decoded := decoded p;
     ip_addr := ip_addr p;
     nseg := nseg p;
     nparam := nparam p;
     port_number := port_number p;
     host_type := host_type p |}.

(** [parts::split]: component [id] keeps its first [n] bytes, the rest
    goes to its successor. *)
Definition split (p : parts) (id : nat) (n : Z) : parts :=
  {| offset := tabulate (id_end + 1)
                 (fun i => if (i =? id + 1)%nat
                           then SizeT.add (off p id) n
                           else off p i);
     decoded := decoded p;
     ip_addr := ip_addr p;
     nseg := nseg p;
     nparam := nparam p;
     port_number := port_number p;
     host_type := host_type p |}.

(** *** The mutators as a transition system

    [parts] offers three mutators of its index: [clear], [resize] and
    [split]. A call is admissible when its arguments have the type the
    source gives them ([n] a [size_t], [id] a component), when the
    assertions of [split] hold, and when the total length a [resize]
    produces is a [size_t]. *)
Inductive op : Type :=
  | op_clear
  | op_resize (id : nat) (n : Z)
  | op_split (id : nat) (n : Z).

Definition apply (p : parts) (o : op) : parts :=
  match o with
  | op_clear => clear p
  | op_resize id n => resize p id n
  | op_split id n => split p id n
  end.

Definition admissible (p : parts) (o : op) : Prop :=
  match o with
  | op_clear => True
  | op_resize id n =>
      (id < id_end)%nat /\ SizeT.in_range n /\
      off p id_end - length p id + n < SizeT.modulus
  | op_split id n =>
      (id < id_end - 1)%nat /\ SizeT.in_range n /\ n <= length p id
  end.

Inductive reachable : parts -> Prop :=
  | reach_ctor (m : storage) : reachable (ctor m)
  | reach_step (p : parts) (o : op) :
      reachable p -> admissible p o -> reachable (apply p o).

(** The invariant of the offset table. *)
Record index_ok (p : parts) : Prop := mk_index_ok {
  ok_size : List.length (offset p) = (id_end + 1)%nat;
  ok_first : off p id_scheme = 0;
  ok_mono : forall i, (i < id_end)%nat -> off p i <= off p (i + 1);
  ok_last : off p id_end < SizeT.modulus
}.

(** Arithmetic over the component identifiers. *)
Ltac idlia :=
  unfold id_scheme, id_user, id_pass, id_host, id_port, id_path, id_query,
    id_frag, id_end in *; lia.

End Parts.

(** ** Characters and the percent-decoder *)

Module Chars.

Definition code (c : ascii) : Z := Z.of_N (N_of_ascii c).

Definition is_digit (c : ascii) : bool :=
  (48 <=? code c) && (code c <=? 57).

Definition digit_value (c : ascii) : Z := code c - 48.

(** [hexdig = DIGIT | "A"-"F" | "a"-"f"] *)
Definition is_hexdig (c : ascii) : bool :=
  is_digit c
  || ((65 <=? code c) && (code c <=? 70))
  || ((97 <=? code c) && (code c <=? 102)).

Definition hex_value (c : ascii) : Z :=
  if is_digit c then code c - 48
  else if (65 <=? code c) && (code c <=? 70) then code c - 55
  else code c - 87.

Definition colon : ascii := ":"%char.
Definition dot : ascii := "."%char.
Definition percent : ascii := "%"%char.

Definition ascii_of_Z (z : Z) : ascii := ascii_of_N (Z.to_N z).

(** Modelled from the spec: the decoder [pct_decode_unchecked] of
    [detail/char_type.hpp], which is not among the sources. It traverses
    the input and replaces each [%HH] by the byte it encodes; being
    unchecked, it copies a [%] that two hex digits do not follow. *)
Fixpoint pct_decode (s : list ascii) : list ascii :=
  match s with
  | [] => []
  | c :: t =>
      match t with
      | h :: l :: r =>
          if Ascii.eqb c percent && is_hexdig h && is_hexdig l
          then ascii_of_Z (16 * hex_value h + hex_value l) :: pct_decode r
          else c :: pct_decode t
      | _ => c :: pct_decode t
      end
  end.

End Chars.

(** ** [class url]: the host accessor *)

Module Url.

Import Parts.

(** The members of [class url]: the buffer [s_], the index [pt_] and the
    capacity [cap_]. *)
Record url : Type := mk_url {
  s_ : list ascii;
  pt_ : parts;
  cap_ : Z
}.

(** [url::host_type()] *)
Definition host_type (u : url) : urls.host_type := Parts.host_type (pt_ u).

Section host_accessor.

(** [url::encoded_host()] is defined in [impl/url.ipp] and the decoder in
    [detail/char_type.hpp]; [url::host] is stated over both. *)
Variable encoded_host : url -> list ascii.
Variable pct_decode_unchecked : list ascii -> Z -> list ascii.

(** [url::host(Allocator const&)] *)
Definition host (u : url) : list ascii :=
  let s0 := encoded_host u in
  if negb (urls.host_type_eqb (Parts.host_type (pt_ u)) urls.name)
  then (* no decoding *) s0
  else pct_decode_unchecked s0 (decoded_at (pt_ u) id_host).

End host_accessor.

(** The two functions [host] is stated over, as the data model describes
    them: the encoded host is the stored bytes of component [id_host], and
    the decoder is [Chars.pct_decode]. *)
Definition stored_host (u : url) : list ascii := get (pt_ u) id_host (s_ u).

Definition decode_sized (s : list ascii) (n : Z) : list ascii :=
  Chars.pct_decode s.

End Url.

(** ** Matcher results *)

(** The error kinds of the grammar engine. *)
Inductive error : Type :=
  | Mismatch | NeedMore | Invalid | BadPercentEscape
  | BadPort | BadScheme | BadHost.

(** A matcher consumes a prefix of its input: on success it yields a value
    and the input left over. *)
Inductive result (A : Type) : Type :=
  | Ok (a : A)
  | Err (e : error).

Arguments Ok {A} a.
Arguments Err {A} e.

Definition bind {A B : Type} (r : result A) (k : A -> result B) : result B :=
  match r with
  | Ok a => k a
  | Err e => Err e
  end.

Notation "'do' x <- r ; k" := (bind r (fun x => k))
  (at level 10, x pattern, r at level 100, k at level 200).

(** A literal character. *)
Definition expect (c : ascii) (s : list ascii) : result (list ascii) :=
  match s with
  | [] => Err NeedMore
  | x :: t => if Ascii.eqb x c then Ok t else Err Mismatch
  end.

(** [parse_all]: the matcher has to consume the whole input. *)
Definition parse_all {A : Type} (m : list ascii -> result (A * list ascii))
    (s : list ascii) : result A :=
  do (a, rest) <- m s;
  match rest with
  | [] => Ok a
  | _ :: _ => Err Mismatch
  end.

Definition is_ok {A : Type} (r : result A) : bool :=
  match r with Ok _ => true | Err _ => false end.

(** ** IPv4address *)

Module IPv4.

Import Chars.

(** The leading digits of [s], at most [n] of them. *)
Fixpoint take_digits (n : nat) (s : list ascii) : list ascii * list ascii :=
  match n, s with
  | S n', c :: t =>
      if is_digit c
      then let '(ds, rest) := take_digits n' t in (c :: ds, rest)
      else ([], s)
  | _, _ => ([], s)
  end.

Definition decimal (ds : list ascii) : Z :=
  fold_left (fun acc c => 10 * acc + digit_value c) ds 0.

(** Modelled from the spec: the [dec-octet] of the matcher [ip_v4address]
    ([rfc/ip_v4address.hpp] is not among the sources). A dec-octet is one
    to three digits whose value is 0 to 255, with no leading zero on a
    value of several digits. *)
Definition dec_octet (s : list ascii) : result (Z * list ascii) :=
  match take_digits 3 s with
  | ([], _) => match s with [] => Err NeedMore | _ => Err Mismatch end
  | (d :: ds, rest) =>
      if Ascii.eqb d "0"%char && negb (Nat.eqb (List.length ds) 0)
      then Err Invalid
      else if 255 <? decimal (d :: ds) then Err Invalid
      else Ok (decimal (d :: ds), rest)
  end.

(** Modelled from the spec: the matcher [ip_v4address], four dec-octets
    separated by dots; it yields the four bytes of the address, the most
    significant first. *)
Definition parse (s : list ascii) : result (list Z * list ascii) :=
  do (a, s1) <- dec_octet s;
  do s1' <- expect dot s1;
  do (b, s2) <- dec_octet s1';
  do s2' <- expect dot s2;
  do (c, s3) <- dec_octet s2';
  do s3' <- expect dot s3;
  do (d, s4) <- dec_octet s3';
  Ok ([a; b; c; d], s4).

(** The whole string is an address, as the tests' [good] and [bad]
    require. *)
Definition matches (s : list ascii) : result (list Z) := parse_all parse s.

(** [ip_v4address_test::check]: the bytes read as one 32-bit number. *)
Definition to_uint32 (p : list Z) : Z :=
  Z.lor (Z.lor (Z.lor (Z.shiftl (nth 0 p 0) 24) (Z.shiftl (nth 1 p 0) 16))
               (Z.shiftl (nth 2 p 0) 8))
        (nth 3 p 0).

(** The text of a dec-octet, read off the grammar: [t] is one to three
    digits, its value [v] is at most 255, and only the one-digit text
    starts with a zero. *)
Definition is_dec_octet (t : list ascii) (v : Z) : Prop :=
  (1 <= List.length t <= 3)%nat /\
  forallb is_digit t = true /\
  v = decimal t /\ v <= 255 /\
  ((1 < List.length t)%nat -> hd dot t <> "0"%char).

(** What may follow a run of digits that [take_digits] stops at. *)
Definition stops (rest : list ascii) : Prop :=
  match rest with
  | [] => True
  | c :: _ => is_digit c = false
  end.

End IPv4.

(** ** IPv6address *)

Module IPv6.

Import Chars.

(** The leading hex digits of [s], at most [n] of them. *)
Fixpoint take_hex (n : nat) (s : list ascii) : list ascii * list ascii :=
  match n, s with
  | S n', c :: t =>
      if is_hexdig c
      then let '(ds, rest) := take_hex n' t in (c :: ds, rest)
      else ([], s)
  | _, _ => ([], s)
  end.

Definition hex (ds : list ascii) : Z :=
  fold_left (fun acc c => 16 * acc + hex_value c) ds 0.

(** [h16]: one to four hex digits, a group of 16 bits. *)
Definition h16 (s : list ascii) : result (Z * list ascii) :=
  match take_hex 4 s with
  | ([], _) => match s with [] => Err NeedMore | _ => Err Mismatch end
  | (ds, rest) => Ok (hex ds, rest)
  end.

(** The text cut at its colons: [1:2::3] has the fields [1], [2], the
    empty field and [3]. *)
Fixpoint fields (s : list ascii) : list (list ascii) :=
  match s with
  | [] => [[]]
  | c :: t =>
      if Ascii.eqb c colon then [] :: fields t
      else match fields t with
           | f :: fs => (c :: f) :: fs
           | [] => [[c]]
           end
  end.

(** The text before and after the first [::], if there is one. *)
Fixpoint find_dc (s : list ascii) : option (list ascii * list ascii) :=
  match s with
  | [] => None
  | c :: t =>
      match t with
      | c' :: t' =>
          if Ascii.eqb c colon && Ascii.eqb c' colon then Some ([], t')
          else match find_dc t with
               | Some (a, b) => Some (c :: a, b)
               | None => None
               end
      | [] => None
      end
  end.

(** [h16 *( ":" h16 )], field by field. *)
Fixpoint h16_all (fs : list (list ascii)) : result (list Z) :=
  match fs with
  | [] => Ok []
  | f :: fs' =>
      do v <- parse_all h16 f;
      do vs <- h16_all fs';
      Ok (v :: vs)
  end.

(** The two groups an embedded IPv4 address fills. *)
Definition v4_groups (p : list Z) : list Z :=
  [256 * nth 0 p 0 + nth 1 p 0; 256 * nth 2 p 0 + nth 3 p 0].

(** The final position: an IPv4 address in the last two slots, or one
    more [h16]. *)
Definition last_field (f : list ascii) : result (list Z) :=
  match IPv4.matches f with
  | Ok p => Ok (v4_groups p)
  | Err _ => do v <- parse_all h16 f; Ok [v]
  end.

(** [h16] fields of which the last may be an IPv4 address. *)
Fixpoint ls_all (fs : list (list ascii)) : result (list Z) :=
  match fs with
  | [] => Ok []
  | [f] => last_field f
  | f :: fs' =>
      do v <- parse_all h16 f;
      do vs <- ls_all fs';
      Ok (v :: vs)
  end.

(** The groups before and after a [::]; either side may be empty. *)
Definition before_dc (a : list ascii) : result (list Z) :=
  match a with
  | [] => Ok []
  | _ => h16_all (fields a)
  end.

Definition after_dc (b : list ascii) : result (list Z) :=
  match b with
  | [] => Ok []
  | _ => ls_all (fields b)
  end.

(** Eight groups as sixteen bytes, the high byte of each group first. *)
Definition bytes (gs : list Z) : list Z :=
  flat_map (fun g => [g / 256; g mod 256]) gs.

(** Modelled from the spec: the matcher [ipv6_address_bnf]
    ([rfc/ipv6_address_bnf.hpp] and its implementation are not among the
    sources). Up to eight [h16] groups separated by single colons; one
    [::] may stand for the groups that are missing; the final position may
    be an IPv4 address filling two slots. The alternatives of the ABNF
    that [url.hpp] quotes leave at most seven slots written beside a
    [::]. A single colon at either end, a second [::] (the error
    [Invalid]), too few groups without [::], more than eight slots, a
    group that is not hex and a malformed IPv4 address all fail. The yield is the address as sixteen
    bytes. *)
Definition matches (s : list ascii) : result (list Z) :=
  match find_dc s with
  | None =>
      do gs <- ls_all (fields s);
      if (List.length gs =? 8)%nat then Ok (bytes gs) else Err Invalid
  | Some (a, b) =>
      match find_dc b with
      | Some _ => Err Invalid
      | None =>
          do pre <- before_dc a;
          do post <- after_dc b;
          if (List.length pre + List.length post <=? 7)%nat
          then Ok (bytes (pre ++ repeat 0 (8 - List.length pre - List.length post)
                            ++ post))
          else Err Invalid
      end
  end.

(** [ipv6_address_bnf_test::get_u64]: eight bytes as one 64-bit number,
    computed in [std::uint64_t]. *)
Definition u64 (z : Z) : Z := z mod 2 ^ 64.

Definition get_u64 (p : list Z) : Z :=
  u64 (u64 (u64 (u64 (u64 (u64 (u64
    (u64 (Z.shiftl (nth 0 p 0) 56) +
     u64 (Z.shiftl (nth 1 p 0) 48)) +
     u64 (Z.shiftl (nth 2 p 0) 40)) +
     u64 (Z.shiftl (nth 3 p 0) 32)) +
     u64 (Z.shiftl (nth 4 p 0) 24)) +
     u64 (Z.shiftl (nth 5 p 0) 16)) +
     u64 (Z.shiftl (nth 6 p 0) 8)) +
     nth 7 p 0).

(** [ipv6_address_bnf_test::check]: the string parses and the two halves
    of the address are [u0] and [u1]. *)
Definition check (s : list ascii) (u0 u1 : Z) : bool :=
  match matches s with
  | Ok p => (get_u64 p =? u0) && (get_u64 (skipn 8 p) =? u1)
  | Err _ => false
  end.

(** *** The grammar

    The nine alternatives of [IPv6address], read as texts paired with the
    groups they denote. *)

Definition is_h16 (t : list ascii) (v : Z) : Prop :=
  (1 <= List.length t <= 4)%nat /\
  forallb is_hexdig t = true /\
  v = hex t.

(** [h16 *( ":" h16 )] *)
Inductive h16_seq : list ascii -> list Z -> Prop :=
  | seq_one (t : list ascii) (v : Z) :
      is_h16 t v -> h16_seq t [v]
  | seq_more (t ts : list ascii) (v : Z) (vs : list Z) :
      is_h16 t v -> h16_seq ts vs -> h16_seq (t ++ colon :: ts) (v :: vs).

(** [*( h16 ":" ) ( h16 / IPv4address )] *)
Inductive ls_seq : list ascii -> list Z -> Prop :=
  | ls_h16 (t : list ascii) (v : Z) :
      is_h16 t v -> ls_seq t [v]
  | ls_v4 (t : list ascii) (p : list Z) :
      IPv4.matches t = Ok p -> ls_seq t (v4_groups p)
  | ls_more (t ts : list ascii) (v : Z) (vs : list Z) :
      is_h16 t v -> ls_seq ts vs -> ls_seq (t ++ colon :: ts) (v :: vs).

(** Either nothing, or a text of [P]. *)
Definition opt (P : list ascii -> list Z -> Prop)
    (t : list ascii) (vs : list Z) : Prop :=
  (t = [] /\ vs = []) \/ P t vs.

(** An address is eight slots written out, or at most seven slots around
    one [::] that stands for the zero groups missing. *)
Inductive address : list ascii -> list Z -> Prop :=
  | addr_full (t : list ascii) (gs : list Z) :
      ls_seq t gs -> List.length gs = 8%nat -> address t gs
  | addr_compressed (a b : list ascii) (pre post : list Z) :
      opt h16_seq a pre -> opt ls_seq b post ->
      (List.length pre + List.length post <= 7)%nat ->
      address (a ++ colon :: colon :: b)
        (pre ++ repeat 0 (8 - List.length pre - List.length post) ++ post).

(** The number of places where two colons stand side by side. *)
Fixpoint count_dc (s : list ascii) : nat :=
  match s with
  | [] => 0
  | c :: t =>
      match t with
      | c' :: _ =>
          if Ascii.eqb c colon && Ascii.eqb c' colon
          then S (count_dc t) else count_dc t
      | [] => 0
      end
  end.

(** *** Auxiliary notions on texts and groups *)

Definition no_colon (t : list ascii) : Prop :=
  forallb (fun c => negb (Ascii.eqb c colon)) t = true.

Fixpoint join (fs : list (list ascii)) : list ascii :=
  match fs with
  | [] => []
  | [f] => f
  | f :: fs' => f ++ colon :: join fs'
  end.

Fixpoint ends_colon (t : list ascii) : bool :=
  match t with
  | [] => false
  | [c] => Ascii.eqb c colon
  | _ :: t' => ends_colon t'
  end.

Definition starts_colon (t : list ascii) : bool :=
  match t with
  | [] => false
  | c :: _ => Ascii.eqb c colon
  end.

(** A text without colons at its ends and without two colons in a row. *)
Record tidy (t : list ascii) : Prop := mk_tidy {
  tidy_count : count_dc t = 0%nat;
  tidy_end : ends_colon t = false;
  tidy_start : starts_colon t = false
}.

(** What may follow a run of hex digits that [take_hex] stops at. *)
Definition stops_hex (rest : list ascii) : Prop :=
  match rest with
  | [] => True
  | c :: _ => is_hexdig c = false
  end.

Definition group_ok (g : Z) : Prop := 0 <= g < 65536.
Definition byte_ok (x : Z) : Prop := 0 <= x < 256.

End IPv6.

(** ** [class url]: the members defined inline in [url.hpp] *)

Module UrlInline.

Import Parts Url.

(** [url::url(storage_ptr sp)]: only [sp_] is given; [s_] keeps its
    initializer [nullptr], [cap_] its initializer [0], and [pt_] is built
    by [parts::parts()] over whatever its storage holds. A null [s_] is
    the buffer without bytes. *)
Definition construct (m : storage) : url :=
  {| s_ := []; pt_ := ctor m; cap_ := 0 |}.

(** [url::capacity()] *)
Definition capacity (u : url) : Z := cap_ u.

Section fragment_accessor.

(** [url::encoded_fragment()] is defined in [impl/url.ipp] and the decoder
    in [detail/char_type.hpp]; [url::fragment] is stated over both. *)
Variable encoded_fragment : url -> list ascii.
Variable pct_decode_unchecked : list ascii -> Z -> list ascii.

(** [url::fragment(Allocator const&)] *)
Definition fragment (u : url) : list ascii :=
  pct_decode_unchecked (encoded_fragment u) (decoded_at (pt_ u) id_frag).

End fragment_accessor.

End UrlInline.

(** [url::segments_type]: the view holds a pointer [v_] to its url, which
    [size()] tests against [nullptr]. *)
Module segments_type.

Record t : Type := mk { v_ : option Url.url }.

(** [segments_type(url& v)] *)
Definition of_url (v : Url.url) : t := mk (Some v).

(** [segments_type::size()] *)
Definition size (x : t) : Z :=
  match v_ x with
  | None => 0
  | Some v => Parts.nseg (Url.pt_ v)
  end.

(** [segments_type::empty()] *)
Definition empty (x : t) : bool := size x =? 0.

End segments_type.

(** [url::params_type], built like [segments_type] over [nparam]. *)
Module params_type.

Record t : Type := mk { v_ : option Url.url }.

(** [params_type(url& v)] *)
Definition of_url (v : Url.url) : t := mk (Some v).

(** [params_type::size()] *)
Definition size (x : t) : Z :=
  match v_ x with
  | None => 0
  | Some v => Parts.nparam (Url.pt_ v)
  end.

(** [params_type::empty()] *)
Definition empty (x : t) : bool := size x =? 0.

End params_type.

(** ** Sums and tactics for the further properties *)

(** The sum of the lengths of the components [b], ..., [e - 1]. *)
Definition sum_lengths (p : Parts.parts) (b e : nat) : Z :=
  fold_right Z.add 0 (map (Parts.length p) (seq b (e - b))).

(** Equalities between [size_t] expressions, by the equations of
    division. *)
Ltac modarith :=
  unfold SizeT.add, SizeT.sub, SizeT.wrap, SizeT.modulus in *;
  change (2 ^ 64) with 18446744073709551616 in *;
  Z.div_mod_to_equations; lia.

(** A list of bytes. *)
Definition is_bytes (n : nat) (p : list Z) : Prop :=
  List.length p = n /\ Forall (fun x => 0 <= x <= 255) p.

(** ** Worked examples *)

Module Examples.

Import Parts.

Definition str (s : string) : list ascii := list_ascii_of_string s.

(** The index of [http://x], built with the mutators of [parts]: an empty
    index, in which the scheme [http:], the user part [//] and the host
    [x] are then given their stored lengths. *)
Definition empty_storage : storage := mk_storage [] [] [].

Definition http_x_index : parts :=
  apply (apply (apply (ctor empty_storage)
                  (op_resize id_scheme 5))
           (op_resize id_user 2))
    (op_resize id_host 1).

Definition http_x_buffer : list ascii := str "http://x".

(** The index of the relative reference [x]: a path of one segment and
    one decoded byte, nothing else. *)
Definition path_x_index : parts :=
  {| offset := [0; 0; 0; 0; 0; 0; 1; 1; 1];
     decoded := [0; 0; 0; 0; 0; 1; 0; 0];
     ip_addr := repeat 0 16;
     nseg := 1;
     nparam := 0;
     port_number := 0;
     host_type := urls.none |}.

(** [//[::1]]: an authority whose host is an IPv6 literal. *)
Definition ipv6_host_url : Url.url :=
  {| Url.s_ := str "//[::1]";
     Url.pt_ := {| offset := [0; 0; 2; 2; 7; 7; 7; 7; 7];
                   decoded := [0; 0; 0; 5; 0; 0; 0; 0];
                   ip_addr := repeat 0 15 ++ [1];
                   nseg := 0;
                   nparam := 0;
                   port_number := 0;
                   host_type := urls.ipv6 |};
     Url.cap_ := 7 |}.

(** [//a%41b]: an authority whose host is a registered name with one
    escaped byte. *)
Definition name_host_url : Url.url :=
  {| Url.s_ := str "//a%41b";
     Url.pt_ := {| offset := [0; 0; 2; 2; 7; 7; 7; 7; 7];
                   decoded := [0; 0; 0; 3; 0; 0; 0; 0];
                   ip_addr := repeat 0 16;
                   nseg := 0;
                   nparam := 0;
                   port_number := 0;
                   host_type := urls.name |};
     Url.cap_ := 7 |}.

End Examples.

(** ** Further worked examples *)

Module MoreExamples.

Import Parts.

(** The index of [http://x] with the host grown to eleven bytes and with
    the host removed. *)
Definition longer_host : parts := resize Examples.http_x_index id_host 11.
Definition no_host : parts := resize Examples.http_x_index id_host 0.

(** The index of [//ab] while the authority is still stored under
    [id_user], and after two of its four bytes are left to [id_user]. *)
Definition authority_unsplit : parts :=
  apply (ctor Examples.empty_storage) (op_resize id_user 4).

Definition authority_buffer : list ascii := Examples.str "//ab".

(** Storage that held other data before a [parts] was built in it. *)
Definition used_storage : storage :=
  mk_storage [7; 7; 7; 7; 7; 7; 7; 7; 7] [3; 1; 4; 1; 5; 9; 2; 6] (repeat 255 16).

(** The index of [a/b?k#f]: three segments-and-parameters counters set, a
    fragment of one decoded byte. *)
Definition full_index : parts :=
  {| offset := [0; 0; 0; 0; 0; 0; 3; 5; 7];
     decoded := [0; 0; 0; 0; 0; 3; 1; 1];
     ip_addr := repeat 0 16;
     nseg := 2;
     nparam := 1;
     port_number := 0;
     host_type := urls.none |}.

End MoreExamples.

(** * Properties *)

(** ** [std::size_t] and arrays *)

Lemma modulus_pos : 0 < SizeT.modulus.
Proof. reflexivity. Qed.

Lemma wrap_small (z : Z) : SizeT.in_range z -> SizeT.wrap z = z.
Proof. intros H. apply Z.mod_small. exact H. Qed.

(** [x += n - n0] on unsigned operands lands on the mathematical result
    whenever that result is representable, whatever the sign of [n - n0]. *)
Lemma add_sub_exact (x n n0 : Z) :
  SizeT.in_range (x + n - n0) -> SizeT.add x (SizeT.sub n n0) = x + n - n0.
Proof.
  intros H. unfold SizeT.add, SizeT.sub, SizeT.wrap.
  rewrite Zplus_mod_idemp_r.
  replace (x + (n - n0)) with (x + n - n0) by ring.
  apply Z.mod_small. exact H.
Qed.

Lemma tabulate_length {A : Type} (n : nat) (f : nat -> A) :
  List.length (tabulate n f) = n.
Proof. unfold tabulate. rewrite length_map, length_seq. reflexivity. Qed.

Lemma tabulate_nth {A : Type} (n : nat) (f : nat -> A) (d : A) (i : nat) :
  (i < n)%nat -> nth i (tabulate n f) d = f i.
Proof.
  intros H. unfold tabulate.
  rewrite (nth_indep _ d (f 0%nat)) by (rewrite length_map, length_seq; exact H).
  rewrite map_nth, seq_nth by exact H. reflexivity.
Qed.

Lemma tabulate_nth_default {A : Type} (n : nat) (f : nat -> A) (d : A) (i : nat) :
  (n <= i)%nat -> nth i (tabulate n f) d = d.
Proof. intros H. apply nth_overflow. rewrite tabulate_length. exact H. Qed.

(** ** The offset table *)

Module PartsFacts.

Import Parts.

Lemma host_type_eqb_spec (a b : urls.host_type) :
  reflect (a = b) (urls.host_type_eqb a b).
Proof. destruct a, b; simpl; constructor; congruence. Qed.

Lemma off_clear (p : parts) (i : nat) : off (clear p) i = 0.
Proof.
  unfold off, clear; simpl offset.
  destruct (Nat.lt_ge_cases i (id_end + 1)) as [H | H].
  - now rewrite tabulate_nth.
  - now rewrite tabulate_nth_default.
Qed.

Lemma off_resize (p : parts) (id : nat) (n : Z) (i : nat) :
  (i <= id_end)%nat ->
  off (resize p id n) i =
    if (id + 1 <=? i)%nat
    then SizeT.add (off p i) (SizeT.sub n (length p id))
    else off p i.
Proof.
  intros H. unfold off at 1, resize; simpl offset.
  rewrite tabulate_nth by idlia. reflexivity.
Qed.

Lemma off_split (p : parts) (id : nat) (n : Z) (i : nat) :
  (i <= id_end)%nat ->
  off (split p id n) i =
    if (i =? id + 1)%nat then SizeT.add (off p id) n else off p i.
Proof.
  intros H. unfold off at 1, split; simpl offset.
  rewrite tabulate_nth by idlia. reflexivity.
Qed.

Section invariant.

Variable p : parts.
Hypothesis OK : index_ok p.

Lemma off_mono (i j : nat) :
  (i <= j)%nat -> (j <= id_end)%nat -> off p i <= off p j.
Proof.
  induction 1 as [| j Hij IH]; intros Hj.
  - idlia.
  - transitivity (off p j).
    + apply IH. idlia.
    + replace (S j) with (j + 1)%nat by idlia. apply (ok_mono p OK). idlia.
Qed.

Lemma off_nonneg (i : nat) : (i <= id_end)%nat -> 0 <= off p i.
Proof.
  intros H. rewrite <- (ok_first p OK). apply off_mono; [idlia | exact H].
Qed.

Lemma off_in_range (i : nat) : (i <= id_end)%nat -> SizeT.in_range (off p i).
Proof.
  intros H. split.
  - now apply off_nonneg.
  - apply Z.le_lt_trans with (off p id_end).
    + now apply off_mono.
    + apply (ok_last p OK).
Qed.

(** Under the invariant the unsigned subtraction in [length] does not
    wrap. *)
Lemma length_exact (i : nat) :
  (i < id_end)%nat -> length p i = off p (i + 1) - off p i.
Proof.
  intros H. unfold length, SizeT.sub. apply wrap_small.
  pose proof (off_in_range i ltac:(idlia)) as Hi.
  pose proof (off_in_range (i + 1) ltac:(idlia)) as Hi1.
  pose proof (ok_mono p OK i H) as Hm.
  unfold SizeT.in_range in *. idlia.
Qed.

Lemma length_range_exact (i j : nat) :
  (i <= j)%nat -> (j <= id_end)%nat ->
  SizeT.sub (off p j) (off p i) = off p j - off p i.
Proof.
  intros Hij Hj. unfold SizeT.sub. apply wrap_small.
  pose proof (off_in_range i ltac:(idlia)) as Hi.
  pose proof (off_in_range j Hj) as Hj'.
  pose proof (off_mono i j Hij Hj) as Hm.
  unfold SizeT.in_range in *. idlia.
Qed.

End invariant.

Lemma clear_ok (p : parts) : index_ok (clear p).
Proof.
  constructor.
  - unfold clear; simpl offset. apply tabulate_length.
  - apply off_clear.
  - intros i _. rewrite !off_clear. idlia.
  - rewrite off_clear. reflexivity.
Qed.

Lemma ctor_ok (m : storage) : index_ok (ctor m).
Proof. apply clear_ok. Qed.

Lemma resize_ok (p : parts) (id : nat) (n : Z) :
  index_ok p -> admissible p (op_resize id n) -> index_ok (resize p id n).
Proof.
  intros OK (Hid & Hn & Hfit).
  assert (Hlen : length p id = off p (id + 1) - off p id)
    by (apply length_exact; assumption).
  assert (Hshift : forall i, (id + 1 <= i)%nat -> (i <= id_end)%nat ->
            SizeT.add (off p i) (SizeT.sub n (length p id)) =
            off p i + n - length p id).
  { intros i Hi Hie. apply add_sub_exact.
    pose proof (off_mono p OK (id + 1) i Hi Hie).
    pose proof (off_mono p OK i id_end Hie (Nat.le_refl _)).
    pose proof (off_nonneg p OK id ltac:(idlia)).
    unfold SizeT.in_range in *. idlia. }
  constructor.
  - unfold resize; simpl offset. apply tabulate_length.
  - rewrite off_resize by (idlia).
    replace (id + 1 <=? id_scheme)%nat with false
      by (symmetry; apply Nat.leb_gt; idlia).
    apply (ok_first p OK).
  - intros i Hi. rewrite !off_resize by idlia.
    pose proof (ok_mono p OK i Hi) as Hm.
    destruct (Nat.leb_spec (id + 1) i) as [E1 | E1];
      destruct (Nat.leb_spec (id + 1) (i + 1)) as [E2 | E2]; try idlia.
    + rewrite !Hshift by idlia. idlia.
    + rewrite Hshift by idlia. assert (i = id) by idlia. subst i.
      unfold SizeT.in_range in Hn. idlia.
  - rewrite off_resize by idlia.
    replace (id + 1 <=? id_end)%nat with true
      by (symmetry; apply Nat.leb_le; idlia).
    rewrite Hshift by idlia. idlia.
Qed.

Lemma split_ok (p : parts) (id : nat) (n : Z) :
  index_ok p -> admissible p (op_split id n) -> index_ok (split p id n).
Proof.
  intros OK (Hid & Hn & Hle).
  assert (Hlen : length p id = off p (id + 1) - off p id)
    by (apply length_exact; [assumption | lia]).
  assert (Hnew : SizeT.add (off p id) n = off p id + n).
  { unfold SizeT.add. apply wrap_small.
    pose proof (off_in_range p OK id ltac:(idlia)).
    pose proof (off_in_range p OK (id + 1) ltac:(idlia)).
    unfold SizeT.in_range in *. idlia. }
  constructor.
  - unfold split; simpl offset. apply tabulate_length.
  - rewrite off_split by (idlia).
    replace (id_scheme =? id + 1)%nat with false
      by (symmetry; apply Nat.eqb_neq; idlia).
    apply (ok_first p OK).
  - intros i Hi. rewrite !off_split by idlia.
    pose proof (ok_mono p OK i Hi) as Hm.
    destruct (Nat.eqb_spec i (id + 1)) as [E1 | E1];
      destruct (Nat.eqb_spec (i + 1) (id + 1)) as [E2 | E2]; try idlia.
    + rewrite Hnew. subst i.
      pose proof (ok_mono p OK id ltac:(idlia)). idlia.
    + rewrite Hnew. assert (i = id) by idlia. subst i.
      unfold SizeT.in_range in Hn. idlia.
  - rewrite off_split by idlia.
    replace (id_end =? id + 1)%nat with false
      by (symmetry; apply Nat.eqb_neq; idlia).
    apply (ok_last p OK).
Qed.

(** [resize] gives component [id] the length [n] and keeps the length of
    every other component. *)
Lemma resize_length (p : parts) (id : nat) (n : Z) (i : nat) :
  index_ok p -> admissible p (op_resize id n) -> (i < id_end)%nat ->
  length (resize p id n) i = if (i =? id)%nat then n else length p i.
Proof.
  intros OK Hadm Hi.
  pose proof (resize_ok p id n OK Hadm) as OK'.
  destruct Hadm as (Hid & Hn & Hfit).
  rewrite (length_exact _ OK' i Hi), (length_exact p OK i Hi).
  pose proof (length_exact p OK id Hid) as Hlen.
  assert (Hshift : forall j, (id + 1 <= j)%nat -> (j <= id_end)%nat ->
            off (resize p id n) j = off p j + n - length p id).
  { intros j Hj Hje. rewrite off_resize by exact Hje.
    replace (id + 1 <=? j)%nat with true by (symmetry; apply Nat.leb_le; exact Hj).
    apply add_sub_exact.
    pose proof (off_mono p OK (id + 1) j Hj Hje).
    pose proof (off_mono p OK j id_end Hje (Nat.le_refl _)).
    pose proof (off_nonneg p OK id ltac:(idlia)).
    unfold SizeT.in_range in *. lia. }
  assert (Hkeep : forall j, (j <= id)%nat -> off (resize p id n) j = off p j).
  { intros j Hj. rewrite off_resize by idlia.
    replace (id + 1 <=? j)%nat with false by (symmetry; apply Nat.leb_gt; lia).
    reflexivity. }
  destruct (Nat.eqb_spec i id) as [-> | Hne].
  - rewrite Hshift, Hkeep by idlia. lia.
  - destruct (Nat.lt_ge_cases i id) as [Hlt | Hge].
    + rewrite !Hkeep by lia. reflexivity.
    + rewrite !Hshift by idlia. lia.
Qed.

(** [split] leaves [n] bytes to component [id] and hands the rest to its
    successor; the other components keep their lengths. *)
Lemma split_length (p : parts) (id : nat) (n : Z) (i : nat) :
  index_ok p -> admissible p (op_split id n) -> (i < id_end)%nat ->
  length (split p id n) i =
    if (i =? id)%nat then n
    else if (i =? id + 1)%nat then length p id + length p (id + 1) - n
    else length p i.
Proof.
  intros OK Hadm Hi.
  pose proof (split_ok p id n OK Hadm) as OK'.
  destruct Hadm as (Hid & Hn & Hle).
  rewrite (length_exact _ OK' i Hi), (length_exact p OK i Hi).
  pose proof (length_exact p OK id ltac:(idlia)) as Hlen.
  pose proof (length_exact p OK (id + 1) ltac:(idlia)) as Hlen1.
  assert (Hnew : off (split p id n) (id + 1) = off p id + n).
  { rewrite off_split by idlia. rewrite Nat.eqb_refl.
    unfold SizeT.add. apply wrap_small.
    pose proof (off_in_range p OK id ltac:(idlia)).
    pose proof (off_in_range p OK (id + 1) ltac:(idlia)).
    unfold SizeT.in_range in *. lia. }
  assert (Hkeep : forall j, (j <= id_end)%nat -> j <> (id + 1)%nat ->
            off (split p id n) j = off p j).
  { intros j Hj Hne. rewrite off_split by exact Hj.
    replace (j =? id + 1)%nat with false by (symmetry; apply Nat.eqb_neq; exact Hne).
    reflexivity. }
  destruct (Nat.eqb_spec i id) as [-> | Hne].
  - rewrite Hnew, Hkeep by idlia. lia.
  - destruct (Nat.eqb_spec i (id + 1)) as [-> | Hne1].
    + rewrite Hnew, Hkeep by idlia. lia.
    + rewrite !Hkeep by idlia. reflexivity.
Qed.

(** Every index the mutators produce satisfies the invariant. *)
Lemma reachable_ok (p : parts) : reachable p -> index_ok p.
Proof.
  induction 1 as [m | p o _ IH Hadm].
  - apply ctor_ok.
  - destruct o as [| id n | id n]; simpl.
    + apply clear_ok.
    + now apply resize_ok.
    + now apply split_ok.
Qed.

End PartsFacts.

Module IndexFacts.

Import Parts PartsFacts.

Lemma firstn_add {A : Type} (m n : nat) (l : list A) :
  firstn (m + n) l = firstn m l ++ firstn n (skipn m l).
Proof.
  revert l. induction m as [| m IH]; intros l.
  - reflexivity.
  - destruct l as [| x l].
    + simpl. now rewrite firstn_nil.
    + simpl. now rewrite IH.
Qed.

(** Two adjacent views of a buffer make one view. *)
Lemma view_app (s : list ascii) (a b c : Z) :
  0 <= a <= b -> b <= c ->
  view s a (b - a) ++ view s b (c - b) = view s a (c - a).
Proof.
  intros Hab Hbc. unfold view.
  replace (Z.to_nat (c - a)) with (Z.to_nat (b - a) + Z.to_nat (c - b))%nat by lia.
  rewrite firstn_add, skipn_skipn.
  replace (Z.to_nat (b - a) + Z.to_nat a)%nat with (Z.to_nat b) by lia.
  reflexivity.
Qed.

Lemma view_length (s : list ascii) (a n : Z) :
  0 <= a -> 0 <= n -> a + n <= Z.of_nat (List.length s) ->
  Z.of_nat (List.length (view s a n)) = n.
Proof.
  intros Ha Hn Hs. unfold view.
  rewrite length_firstn, length_skipn. lia.
Qed.

Section views.

Variable p : parts.
Variable s : list ascii.
Hypothesis OK : index_ok p.

Lemma get_view (i : nat) :
  (i < id_end)%nat -> get p i s = view s (off p i) (off p (i + 1) - off p i).
Proof.
  intros H. unfold get.
  rewrite (length_range_exact p OK i (i + 1)) by idlia. reflexivity.
Qed.

Lemma get_range_view (i j : nat) :
  (i <= j)%nat -> (j <= id_end)%nat ->
  get_range p i j s = view s (off p i) (off p j - off p i).
Proof.
  intros Hij Hj. unfold get_range.
  rewrite (length_range_exact p OK i j) by assumption. reflexivity.
Qed.

(** The first [k] components, in order, are the bytes up to [offset[k]]. *)
Lemma concat_components (k : nat) :
  (k <= id_end)%nat ->
  List.concat (map (fun i => get p i s) (seq 0 k)) =
  view s (off p id_scheme) (off p k - off p id_scheme).
Proof.
  induction k as [| k IH]; intros Hk.
  - simpl. unfold view, id_scheme. now rewrite Z.sub_diag.
  - rewrite seq_S, map_app, List.concat_app, IH by lia. simpl.
    rewrite app_nil_r, get_view by idlia.
    replace (k + 1)%nat with (S k) by lia.
    apply view_app.
    + split.
      * apply (off_nonneg p OK). idlia.
      * apply (off_mono p OK); idlia.
    + apply (off_mono p OK); idlia.
Qed.

End views.

End IndexFacts.

(** ** The order of the offsets *)

Module OrderFacts.

Import Parts PartsFacts.

(** The invariant reads the offsets and nothing else. *)
Lemma index_ok_offsets (p q : parts) :
  offset p = offset q -> index_ok p -> index_ok q.
Proof.
  intros E [Hsize Hfirst Hmono Hlast].
  unfold off in *. rewrite E in *.
  constructor; assumption.
Qed.

(** [resize] has no guard of its own: when the new total length does not
    fit [size_t], the offsets after [id] wrap around and one of them falls
    below an earlier one. *)
Lemma resize_needs_room (p : parts) (id : nat) (n : Z) :
  index_ok p -> (id < id_end)%nat -> SizeT.in_range n ->
  index_ok (resize p id n) ->
  off p id_end - length p id + n < SizeT.modulus.
Proof.
  intros OK Hid Hn OK'.
  destruct (Z.lt_ge_cases (off p id_end - length p id + n) SizeT.modulus)
    as [H | Hge]; [exact H | exfalso].
  pose proof (length_exact p OK id Hid) as Hlen.
  pose proof (off_mono _ OK' id (id + 1) ltac:(lia) ltac:(idlia)) as M1.
  pose proof (off_mono _ OK' (id + 1) id_end ltac:(idlia) ltac:(idlia)) as M2.
  rewrite !off_resize in M1, M2 by idlia.
  replace (id + 1 <=? id)%nat with false in M1 by (symmetry; apply Nat.leb_gt; lia).
  replace (id + 1 <=? id + 1)%nat with true in M1, M2 by (symmetry; apply Nat.leb_le; lia).
  replace (id + 1 <=? id_end)%nat with true in M2 by (symmetry; apply Nat.leb_le; lia).
  rewrite Hlen in *.
  pose proof (off_in_range p OK id ltac:(idlia)) as R0.
  pose proof (off_in_range p OK (id + 1) ltac:(idlia)) as R1.
  pose proof (off_in_range p OK id_end ltac:(idlia)) as R2.
  pose proof (off_mono p OK id (id + 1) ltac:(lia) ltac:(idlia)) as N1.
  pose proof (off_mono p OK (id + 1) id_end ltac:(idlia) ltac:(idlia)) as N2.
  unfold SizeT.in_range in *.
  modarith.
Qed.

End OrderFacts.

(** ** Claims on [detail::parts] *)

(** C3, as the source has it: [clear()], and the constructor through it,
    reset the host type and all nine offsets, so that every component has
    length 0, and leave the cached decoded lengths alone, like the other
    members. After [clear()] the array [decoded] is what it was before the
    call; after construction it is whatever the storage held. *)
Theorem clear_resets_offsets_only :
  (forall p : Parts.parts,
     Parts.offset (Parts.clear p) = repeat 0 9 /\
     Parts.host_type (Parts.clear p) = urls.none /\
     (forall i, (i < Parts.id_end)%nat -> Parts.length (Parts.clear p) i = 0) /\
     Parts.decoded (Parts.clear p) = Parts.decoded p /\
     Parts.ip_addr (Parts.clear p) = Parts.ip_addr p /\
     Parts.nseg (Parts.clear p) = Parts.nseg p /\
     Parts.nparam (Parts.clear p) = Parts.nparam p /\
     Parts.port_number (Parts.clear p) = Parts.port_number p) /\
  (forall m : Parts.storage,
     Parts.offset (Parts.ctor m) = repeat 0 9 /\
     Parts.host_type (Parts.ctor m) = urls.none /\
     (forall i, (i < Parts.id_end)%nat -> Parts.length (Parts.ctor m) i = 0) /\
     Parts.decoded (Parts.ctor m) = Parts.raw_decoded m /\
     Parts.ip_addr (Parts.ctor m) = Parts.raw_ip_addr m /\
     Parts.nseg (Parts.ctor m) = 0 /\
     Parts.nparam (Parts.ctor m) = 0 /\
     Parts.port_number (Parts.ctor m) = 0).
Proof.
  split.
  - intros p. repeat split.
    intros i _. unfold Parts.length. now rewrite !PartsFacts.off_clear.
  - intros m. repeat split.
    intros i _. unfold Parts.length, Parts.ctor.
    now rewrite !PartsFacts.off_clear.
Qed.

(** C3, the claim as stated fails: clearing the index of the relative
    reference [x] leaves [decoded[id_path] = 1], although the path is then
    empty. *)
Lemma clear_keeps_decoded :
  ~ (forall i, (i < Parts.id_end)%nat ->
       Parts.decoded_at (Parts.clear Examples.path_x_index) i = 0).
Proof.
  intros H. specialize (H Parts.id_path ltac:(unfold Parts.id_path, Parts.id_end; lia)).
  discriminate H.
Qed.




(** ** Claims on [url::host] *)

(** C9: unless the host type is [name], [host()] returns the encoded host
    as it stands; the decoder runs when, and only when, the host type is
    [name]. *)
Theorem host_decodes_only_names
    (encoded_host : Url.url -> list ascii)
    (pct_decode_unchecked : list ascii -> Z -> list ascii) (u : Url.url) :
  (Url.host_type u <> urls.name ->
     Url.host encoded_host pct_decode_unchecked u = encoded_host u) /\
  (Url.host_type u = urls.name ->
     Url.host encoded_host pct_decode_unchecked u =
     pct_decode_unchecked (encoded_host u)
       (Parts.decoded_at (Url.pt_ u) Parts.id_host)).
Proof.
  unfold Url.host, Url.host_type.
  destruct (PartsFacts.host_type_eqb_spec (Parts.host_type (Url.pt_ u)) urls.name)
    as [E | E]; simpl; split; intros H; congruence.
Qed.

(** C9 at [//[::1]] and at [//a%41b], with the stored host bytes and the
    decoder of the data model: the IPv6 literal comes back as stored, the
    registered name comes back decoded. *)
Lemma host_decodes_only_names_examples :
  Url.host Url.stored_host Url.decode_sized Examples.ipv6_host_url =
    Examples.str "[::1]" /\
  Url.host Url.stored_host Url.decode_sized Examples.name_host_url =
    Examples.str "aAb".
Proof.
  split.
  - rewrite (proj1 (host_decodes_only_names Url.stored_host Url.decode_sized
                      Examples.ipv6_host_url)).
    + vm_compute. reflexivity.
    + vm_compute. congruence.
  - rewrite (proj2 (host_decodes_only_names Url.stored_host Url.decode_sized
                      Examples.name_host_url)).
    + vm_compute. reflexivity.
    + vm_compute. reflexivity.
Defined.

(** ** The IPv4 matcher *)

Module IPv4Facts.

Import Chars IPv4.

Lemma take_digits_spec (n : nat) (s : list ascii) :
  s = fst (take_digits n s) ++ snd (take_digits n s) /\
  forallb is_digit (fst (take_digits n s)) = true /\
  (List.length (fst (take_digits n s)) <= n)%nat.
Proof.
  revert s. induction n as [| n IH]; intros s.
  - simpl. repeat split; lia.
  - destruct s as [| c t]; simpl.
    + repeat split; lia.
    + destruct (is_digit c) eqn:Ec.
      * specialize (IH t). destruct (take_digits n t) as [ds rest]. simpl in *.
        destruct IH as (H1 & H2 & H3). rewrite Ec, H2. repeat split.
        -- now rewrite <- H1.
        -- lia.
      * simpl. repeat split; lia.
Qed.

Lemma take_digits_app (n : nat) (t rest : list ascii) :
  forallb is_digit t = true ->
  (List.length t <= n)%nat ->
  ((List.length t < n)%nat -> stops rest) ->
  take_digits n (t ++ rest) = (t, rest).
Proof.
  revert t. induction n as [| n IH]; intros t Hd Hlen Hstop.
  - destruct t; [reflexivity | simpl in Hlen; lia].
  - destruct t as [| c t]; simpl.
    + specialize (Hstop ltac:(simpl; lia)).
      destruct rest as [| r rest]; [reflexivity |].
      simpl in Hstop. now rewrite Hstop.
    + simpl in Hd. apply andb_prop in Hd as [Hc Hd]. rewrite Hc.
      rewrite IH; [reflexivity | exact Hd | simpl in Hlen; lia |].
      intros H. apply Hstop. simpl. lia.
Qed.

Lemma dec_octet_sound (s rest : list ascii) (v : Z) :
  dec_octet s = Ok (v, rest) ->
  exists t, s = t ++ rest /\ is_dec_octet t v.
Proof.
  unfold dec_octet. intros H.
  destruct (take_digits_spec 3 s) as (Hs & Hd & Hlen).
  destruct (take_digits 3 s) as [[| d ds] r]; cbn [fst snd] in *.
  - destruct s; discriminate.
  - destruct (Ascii.eqb d "0" && negb (List.length ds =? 0)%nat) eqn:Ez;
      [discriminate |].
    destruct (255 <? decimal (d :: ds)) eqn:Ev; [discriminate |].
    injection H as Hv Hr. subst r.
    exists (d :: ds). split; [exact Hs |].
    apply Z.ltb_ge in Ev.
    unfold is_dec_octet. split; [| split; [| split; [| split]]].
    + simpl in *. lia.
    + exact Hd.
    + now symmetry.
    + lia.
    + intros Hl Hd0. simpl in Hd0. subst d. simpl in Ez.
      destruct ds; [simpl in Hl; lia | discriminate].
Qed.

Lemma dec_octet_complete (t rest : list ascii) (v : Z) :
  is_dec_octet t v -> stops rest -> dec_octet (t ++ rest) = Ok (v, rest).
Proof.
  intros (Hlen & Hd & Hv & Hmax & Hz) Hstop. unfold dec_octet.
  rewrite take_digits_app; [| assumption | lia | intros _; assumption].
  destruct t as [| d ds]; [simpl in Hlen; lia |].
  destruct (Ascii.eqb d "0" && negb (List.length ds =? 0)%nat) eqn:Ez.
  - apply andb_prop in Ez as [E1 E2]. apply Ascii.eqb_eq in E1.
    exfalso. apply Hz; [| exact E1].
    simpl. destruct ds; [discriminate | simpl; lia].
  - replace (255 <? decimal (d :: ds)) with false
      by (symmetry; apply Z.ltb_ge; lia).
    now subst v.
Qed.

Lemma expect_ok (c : ascii) (s t : list ascii) :
  expect c s = Ok t <-> s = c :: t.
Proof.
  unfold expect. destruct s as [| x s]; [split; discriminate |].
  destruct (Ascii.eqb_spec x c) as [E | E]; split; intros H;
    try discriminate; try congruence.
Qed.

Lemma stops_dot (l : list ascii) : stops (dot :: l).
Proof. reflexivity. Qed.

(** The strings the matcher consumes entirely are the dotted quadruples of
    dec-octets, and the bytes it yields are their values in order. *)
Lemma ipv4_matches_iff (s : list ascii) (addr : list Z) :
  matches s = Ok addr <->
  exists t1 t2 t3 t4 a b c d,
    s = t1 ++ dot :: t2 ++ dot :: t3 ++ dot :: t4 /\
    is_dec_octet t1 a /\ is_dec_octet t2 b /\
    is_dec_octet t3 c /\ is_dec_octet t4 d /\
    addr = [a; b; c; d].
Proof.
  unfold matches, parse_all, parse. split.
  - intros H.
    destruct (dec_octet s) as [[a s1] | e] eqn:E1; simpl in H; [| discriminate].
    destruct (expect dot s1) as [s1' | e] eqn:X1; simpl in H; [| discriminate].
    destruct (dec_octet s1') as [[b s2] | e] eqn:E2; simpl in H; [| discriminate].
    destruct (expect dot s2) as [s2' | e] eqn:X2; simpl in H; [| discriminate].
    destruct (dec_octet s2') as [[c s3] | e] eqn:E3; simpl in H; [| discriminate].
    destruct (expect dot s3) as [s3' | e] eqn:X3; simpl in H; [| discriminate].
    destruct (dec_octet s3') as [[d s4] | e] eqn:E4; simpl in H; [| discriminate].
    destruct s4; [| discriminate]. injection H as <-.
    apply expect_ok in X1, X2, X3. subst s1 s2 s3.
    apply dec_octet_sound in E1 as (t1 & -> & O1).
    apply dec_octet_sound in E2 as (t2 & -> & O2).
    apply dec_octet_sound in E3 as (t3 & -> & O3).
    apply dec_octet_sound in E4 as (t4 & -> & O4).
    exists t1, t2, t3, t4, a, b, c, d. rewrite app_nil_r.
    split; [reflexivity |]. repeat (split; [assumption |]). reflexivity.
  - intros (t1 & t2 & t3 & t4 & a & b & c & d & -> & O1 & O2 & O3 & O4 & ->).
    rewrite (dec_octet_complete t1 _ a O1 (stops_dot _)). cbn [bind expect].
    change (Ascii.eqb dot dot) with true. cbn [bind].
    rewrite (dec_octet_complete t2 _ b O2 (stops_dot _)). cbn [bind expect].
    change (Ascii.eqb dot dot) with true. cbn [bind].
    rewrite (dec_octet_complete t3 _ c O3 (stops_dot _)). cbn [bind expect].
    change (Ascii.eqb dot dot) with true. cbn [bind].
    rewrite <- (app_nil_r t4).
    rewrite (dec_octet_complete t4 [] d O4 I). reflexivity.
Qed.

(** A byte below a left shift: [|] and [+] agree. *)
Lemma lor_shiftl_byte (x y : Z) :
  0 <= x -> 0 <= y < 256 -> Z.lor (Z.shiftl x 8) y = 256 * x + y.
Proof.
  intros Hx Hy.
  rewrite <- Z.lxor_lor.
  - rewrite <- Z.add_nocarry_lxor.
    + rewrite Z.shiftl_mul_pow2 by lia. change (2 ^ 8) with 256. lia.
    + apply Z.bits_inj'. intros n Hn.
      rewrite Z.land_spec, Z.bits_0.
      destruct (Z.lt_ge_cases n 8) as [Hlt | Hge].
      * rewrite Z.shiftl_spec_low by exact Hlt. reflexivity.
      * rewrite (Z.bits_above_log2 y n); [apply andb_false_r | lia |].
        destruct (Z.eq_dec y 0) as [-> | Hy0]; [simpl; lia |].
        apply Z.log2_lt_pow2; [lia |].
        apply Z.lt_le_trans with (2 ^ 8); [simpl; lia |].
        apply Z.pow_le_mono_r; lia.
  - apply Z.bits_inj'. intros n Hn.
    rewrite Z.land_spec, Z.bits_0.
    destruct (Z.lt_ge_cases n 8) as [Hlt | Hge].
    + rewrite Z.shiftl_spec_low by exact Hlt. reflexivity.
    + rewrite (Z.bits_above_log2 y n); [apply andb_false_r | lia |].
      destruct (Z.eq_dec y 0) as [-> | Hy0]; [simpl; lia |].
      apply Z.log2_lt_pow2; [lia |].
      apply Z.lt_le_trans with (2 ^ 8); [simpl; lia |].
      apply Z.pow_le_mono_r; lia.
Qed.

(** [check] of the test reads the four bytes as a big-endian number. *)
Lemma to_uint32_big_endian (a b c d : Z) :
  0 <= a -> 0 <= b < 256 -> 0 <= c < 256 -> 0 <= d < 256 ->
  to_uint32 [a; b; c; d] = a * 2 ^ 24 + b * 2 ^ 16 + c * 2 ^ 8 + d.
Proof.
  intros Ha Hb Hc Hd. unfold to_uint32. simpl nth.
  replace (Z.shiftl a 24) with (Z.shiftl (Z.shiftl (Z.shiftl a 8) 8) 8)
    by (rewrite !Z.shiftl_shiftl by lia; reflexivity).
  replace (Z.shiftl b 16) with (Z.shiftl (Z.shiftl b 8) 8)
    by (rewrite !Z.shiftl_shiftl by lia; reflexivity).
  rewrite <- !Z.shiftl_lor.
  rewrite (lor_shiftl_byte a b) by lia.
  rewrite (lor_shiftl_byte (256 * a + b) c) by lia.
  rewrite (lor_shiftl_byte _ d) by lia.
  lia.
Qed.

Lemma decimal_nonneg_aux (ds : list ascii) (acc : Z) :
  forallb is_digit ds = true -> 0 <= acc ->
  0 <= fold_left (fun acc c => 10 * acc + digit_value c) ds acc.
Proof.
  revert acc. induction ds as [| c ds IH]; intros acc Hd Hacc; cbn [fold_left].
  - exact Hacc.
  - cbn [forallb] in Hd. apply andb_prop in Hd as [Hc Hd]. apply IH; [exact Hd |].
    unfold is_digit in Hc. apply andb_prop in Hc as [H1 H2].
    apply Z.leb_le in H1. unfold digit_value. lia.
Qed.

Lemma dec_octet_byte (t : list ascii) (v : Z) :
  is_dec_octet t v -> 0 <= v < 256.
Proof.
  intros (_ & Hd & -> & Hmax & _). split; [| lia].
  apply decimal_nonneg_aux; [exact Hd | lia].
Qed.

End IPv4Facts.

(** The table of [ip_v4address_test::run]: every [bad] string is
    rejected, every [good] string is accepted, every [check] yields the
    number the test expects. *)
Lemma ip_v4address_test_run :
  forallb (fun s => negb (is_ok (IPv4.matches (Examples.str s))))
    ["0"; "0."; "0.0"; "0.0."; "0.0.0"; "0.0.0."; "0.0.0.256"; "1.2.3.4.";
     "1.2.3.4x"; "1.2.3.300"]%string = true /\
  forallb (fun s => is_ok (IPv4.matches (Examples.str s)))
    ["0.0.0.0"; "1.2.3.4"]%string = true /\
  map (fun s => bind (IPv4.matches (Examples.str s))
                  (fun p => Ok (IPv4.to_uint32 p)))
    ["0.0.0.0"; "1.2.3.4"; "32.64.128.1"; "255.255.255.255"]%string =
  [Ok 0x00000000; Ok 0x01020304; Ok 0x20408001; Ok 0xffffffff].
Proof. repeat split; vm_compute; reflexivity. Qed.


(** ** The IPv6 matcher *)

Module IPv6Facts.

Import Chars IPv6.

(** *** Texts, fields and colons *)

Lemma fields_nonempty (s : list ascii) : fields s <> [].
Proof.
  destruct s as [| c t]; simpl; [discriminate |].
  destruct (Ascii.eqb c colon); [discriminate |].
  destruct (fields t); discriminate.
Qed.

Lemma join_fields (s : list ascii) : join (fields s) = s.
Proof.
  induction s as [| c t IH]; [reflexivity |].
  simpl. destruct (Ascii.eqb_spec c colon) as [-> | Hc].
  - pose proof (fields_nonempty t) as Hne.
    destruct (fields t) as [| f fs]; [contradiction |].
    change (join ([] :: f :: fs)) with ([] ++ colon :: join (f :: fs)).
    now rewrite IH.
  - pose proof (fields_nonempty t) as Hne.
    destruct (fields t) as [| f fs]; [contradiction |].
    destruct fs as [| g gs]; simpl in *; now rewrite <- IH.
Qed.

Lemma fields_no_colon (t : list ascii) : no_colon t -> fields t = [t].
Proof.
  unfold no_colon. induction t as [| c t IH]; intros H; [reflexivity |].
  simpl in H. apply andb_prop in H as [Hc Ht].
  simpl. apply negb_true_iff in Hc. rewrite Hc, (IH Ht). reflexivity.
Qed.

Lemma fields_app (t ts : list ascii) :
  no_colon t -> fields (t ++ colon :: ts) = t :: fields ts.
Proof.
  unfold no_colon. induction t as [| c t IH]; intros H.
  - simpl. reflexivity.
  - simpl in H. apply andb_prop in H as [Hc Ht].
    simpl. apply negb_true_iff in Hc. rewrite Hc, (IH Ht). reflexivity.
Qed.

Lemma count_dc_cons2 (c c' : ascii) (t : list ascii) :
  count_dc (c :: c' :: t) =
  ((if Ascii.eqb c colon && Ascii.eqb c' colon then 1 else 0) +
   count_dc (c' :: t))%nat.
Proof.
  change (count_dc (c :: c' :: t))
    with (if Ascii.eqb c colon && Ascii.eqb c' colon
          then S (count_dc (c' :: t)) else count_dc (c' :: t)).
  destruct (Ascii.eqb c colon && Ascii.eqb c' colon); reflexivity.
Qed.

Lemma find_dc_cons2 (c c' : ascii) (t : list ascii) :
  find_dc (c :: c' :: t) =
  if Ascii.eqb c colon && Ascii.eqb c' colon then Some ([], t)
  else match find_dc (c' :: t) with
       | Some (a, b) => Some (c :: a, b)
       | None => None
       end.
Proof. reflexivity. Qed.

Lemma count_dc_app (a b : list ascii) :
  count_dc (a ++ b) =
  (count_dc a + count_dc b +
   if ends_colon a && starts_colon b then 1 else 0)%nat.
Proof.
  induction a as [| c a IH]; [simpl; lia |].
  destruct a as [| c' a].
  - simpl. destruct b as [| d b]; simpl.
    + now rewrite andb_false_r.
    + destruct (Ascii.eqb c colon), (Ascii.eqb d colon); simpl; lia.
  - change ((c :: c' :: a) ++ b) with (c :: c' :: (a ++ b)).
    change (ends_colon (c :: c' :: a)) with (ends_colon (c' :: a)).
    rewrite !count_dc_cons2.
    change (c' :: a ++ b) with ((c' :: a) ++ b). rewrite IH. lia.
Qed.

Lemma ends_colon_app (a b : list ascii) :
  b <> [] -> ends_colon (a ++ b) = ends_colon b.
Proof.
  intros Hb. induction a as [| c a IH]; [reflexivity |].
  simpl. destruct (a ++ b) eqn:E.
  - destruct a; [simpl in E; contradiction | discriminate].
  - exact IH.
Qed.

Lemma tidy_nil : tidy [].
Proof. now constructor. Qed.

Lemma no_colon_tidy (t : list ascii) : no_colon t -> tidy t.
Proof.
  unfold no_colon. induction t as [| c t IH]; intros H; [apply tidy_nil |].
  simpl in H. apply andb_prop in H as [Hc Ht]. apply negb_true_iff in Hc.
  destruct (IH Ht) as [H1 H2 H3].
  constructor.
  - simpl. destruct t; [reflexivity |]. now rewrite Hc.
  - simpl. destruct t; [exact Hc | exact H2].
  - exact Hc.
Qed.

Lemma tidy_cons_field (t ts : list ascii) :
  no_colon t -> t <> [] -> tidy ts -> ts <> [] -> tidy (t ++ colon :: ts).
Proof.
  intros Ht Hne [C E S] Hts.
  destruct (no_colon_tidy t Ht) as [Ct Et St].
  constructor.
  - rewrite count_dc_app, Ct, Et. simpl.
    destruct ts as [| d ts]; [contradiction |].
    simpl in S. rewrite S, C. reflexivity.
  - rewrite ends_colon_app by discriminate.
    destruct ts as [| d ts]; [contradiction |]. exact E.
  - destruct t; [contradiction |]. exact St.
Qed.

(** *** Finding the first [::] *)

Lemma find_dc_some (s a b : list ascii) :
  find_dc s = Some (a, b) -> s = a ++ colon :: colon :: b.
Proof.
  revert a. induction s as [| c t IH]; intros a H; [discriminate |].
  destruct t as [| c' t']; [discriminate |].
  rewrite find_dc_cons2 in H.
  destruct (Ascii.eqb c colon && Ascii.eqb c' colon) eqn:E.
  - injection H as <- <-. apply andb_prop in E as [E1 E2].
    apply Ascii.eqb_eq in E1, E2. now subst.
  - destruct (find_dc (c' :: t')) as [[a' b'] |] eqn:F; [| discriminate].
    injection H as <- <-. rewrite (IH a' eq_refl). reflexivity.
Qed.

Lemma find_dc_none (s : list ascii) : count_dc s = 0%nat -> find_dc s = None.
Proof.
  induction s as [| c t IH]; intros H; [reflexivity |].
  destruct t as [| c' t']; [reflexivity |].
  rewrite count_dc_cons2 in H. rewrite find_dc_cons2.
  destruct (Ascii.eqb c colon && Ascii.eqb c' colon); [discriminate |].
  now rewrite (IH H).
Qed.

Lemma find_dc_app (a b : list ascii) :
  count_dc a = 0%nat -> ends_colon a = false ->
  find_dc (a ++ colon :: colon :: b) = Some (a, b).
Proof.
  induction a as [| c a IH]; intros Hc He.
  - reflexivity.
  - destruct a as [| c' a].
    + simpl in He. simpl. rewrite He. simpl. reflexivity.
    + change (ends_colon (c :: c' :: a)) with (ends_colon (c' :: a)) in He.
      rewrite count_dc_cons2 in Hc.
      change ((c :: c' :: a) ++ colon :: colon :: b)
        with (c :: c' :: (a ++ colon :: colon :: b)).
      rewrite find_dc_cons2.
      destruct (Ascii.eqb c colon && Ascii.eqb c' colon); [discriminate |].
      change (c' :: a ++ colon :: colon :: b)
        with ((c' :: a) ++ colon :: colon :: b).
      now rewrite (IH Hc He).
Qed.

(** *** Groups *)

Lemma take_hex_spec (n : nat) (s : list ascii) :
  s = fst (take_hex n s) ++ snd (take_hex n s) /\
  forallb is_hexdig (fst (take_hex n s)) = true /\
  (List.length (fst (take_hex n s)) <= n)%nat.
Proof.
  revert s. induction n as [| n IH]; intros s.
  - simpl. repeat split; lia.
  - destruct s as [| c t]; simpl.
    + repeat split; lia.
    + destruct (is_hexdig c) eqn:Ec.
      * specialize (IH t). destruct (take_hex n t) as [ds rest]. simpl in *.
        destruct IH as (H1 & H2 & H3). rewrite Ec, H2. repeat split.
        -- now rewrite <- H1.
        -- lia.
      * simpl. repeat split; lia.
Qed.

Lemma take_hex_app (n : nat) (t rest : list ascii) :
  forallb is_hexdig t = true ->
  (List.length t <= n)%nat ->
  ((List.length t < n)%nat -> stops_hex rest) ->
  take_hex n (t ++ rest) = (t, rest).
Proof.
  revert t. induction n as [| n IH]; intros t Hd Hlen Hstop.
  - destruct t; [reflexivity | simpl in Hlen; lia].
  - destruct t as [| c t]; simpl.
    + specialize (Hstop ltac:(simpl; lia)).
      destruct rest as [| r rest]; [reflexivity |].
      simpl in Hstop. now rewrite Hstop.
    + simpl in Hd. apply andb_prop in Hd as [Hc Hd]. rewrite Hc.
      rewrite IH; [reflexivity | exact Hd | simpl in Hlen; lia |].
      intros H. apply Hstop. simpl. lia.
Qed.

(** A whole field is an [h16] exactly when it is one to four hex digits. *)
Lemma h16_field_iff (f : list ascii) (v : Z) :
  parse_all h16 f = Ok v <-> is_h16 f v.
Proof.
  unfold parse_all, h16, is_h16. split.
  - intros H. destruct (take_hex_spec 4 f) as (Hs & Hd & Hlen).
    destruct (take_hex 4 f) as [[| d ds] rest]; cbn [fst snd] in *.
    + destruct f; discriminate.
    + cbn [bind] in H. destruct rest; [| discriminate].
      injection H as <-. rewrite app_nil_r in Hs. subst f.
      repeat split; try assumption. simpl. lia.
  - intros (Hlen & Hd & ->).
    rewrite <- (app_nil_r f) at 1.
    rewrite take_hex_app; [| assumption | lia | intros _; exact I].
    destruct f; [simpl in Hlen; lia | reflexivity].
Qed.

Lemma hexdig_not_colon (c : ascii) :
  is_hexdig c = true -> Ascii.eqb c colon = false.
Proof.
  intros H. destruct (Ascii.eqb_spec c colon) as [-> | _]; [discriminate | reflexivity].
Qed.

Lemma hexdig_not_dot (c : ascii) :
  is_hexdig c = true -> Ascii.eqb c dot = false.
Proof.
  intros H. destruct (Ascii.eqb_spec c dot) as [-> | _]; [discriminate | reflexivity].
Qed.

Lemma digit_hexdig (c : ascii) : is_digit c = true -> is_hexdig c = true.
Proof. intros H. unfold is_hexdig. now rewrite H. Qed.

Lemma forallb_impl {A : Type} (f g : A -> bool) (l : list A) :
  (forall x, f x = true -> g x = true) ->
  forallb f l = true -> forallb g l = true.
Proof.
  intros Hfg. induction l as [| x l IH]; [reflexivity |].
  simpl. intros H. apply andb_prop in H as [Hx Hl].
  now rewrite (Hfg x Hx), (IH Hl).
Qed.

Lemma hex_no_colon (t : list ascii) :
  forallb is_hexdig t = true -> no_colon t.
Proof.
  apply forallb_impl. intros c Hc. now rewrite (hexdig_not_colon c Hc).
Qed.

Lemma no_colon_app (a b : list ascii) :
  no_colon a -> no_colon b -> no_colon (a ++ b).
Proof.
  unfold no_colon. intros Ha Hb. now rewrite forallb_app, Ha, Hb.
Qed.

Lemma no_colon_dot (b : list ascii) : no_colon b -> no_colon (dot :: b).
Proof. unfold no_colon. simpl. trivial. Qed.

Lemma is_h16_no_colon (t : list ascii) (v : Z) : is_h16 t v -> no_colon t.
Proof. intros (_ & H & _). now apply hex_no_colon. Qed.

Lemma is_h16_nonempty (t : list ascii) (v : Z) : is_h16 t v -> t <> [].
Proof. intros (H & _) ->. simpl in H. lia. Qed.

Lemma dec_octet_no_colon (t : list ascii) (v : Z) :
  IPv4.is_dec_octet t v -> no_colon t.
Proof.
  intros (_ & H & _). apply hex_no_colon.
  revert H. apply forallb_impl. exact digit_hexdig.
Qed.

(** The text of an IPv4 address has a dot and no colon, so no [h16] and
    no field boundary can be mistaken for it. *)
Lemma v4_text (t : list ascii) (p : list Z) :
  IPv4.matches t = Ok p ->
  no_colon t /\ t <> [] /\ forallb is_hexdig t = false.
Proof.
  intros H. apply IPv4Facts.ipv4_matches_iff in H
    as (t1 & t2 & t3 & t4 & a & b & c & d & -> & O1 & O2 & O3 & O4 & _).
  split; [| split].
  - repeat (apply no_colon_app || apply no_colon_dot);
      eapply dec_octet_no_colon; eassumption.
  - destruct t1; discriminate.
  - rewrite forallb_app. simpl.
    change (is_hexdig dot) with false. simpl. apply andb_false_r.
Qed.

Lemma h16_all_sound (fs : list (list ascii)) (vs : list Z) :
  fs <> [] -> h16_all fs = Ok vs -> h16_seq (join fs) vs.
Proof.
  revert vs. induction fs as [| f fs IH]; intros vs Hne H; [contradiction |].
  cbn [h16_all] in H.
  destruct (parse_all h16 f) as [v | e] eqn:Ef; [| discriminate].
  cbn [bind] in H. apply h16_field_iff in Ef.
  destruct (h16_all fs) as [ws | e] eqn:Efs; [| discriminate].
  cbn [bind] in H. injection H as <-.
  destruct fs as [| g gs].
  - simpl in Efs. injection Efs as <-. simpl. now apply seq_one.
  - change (join (f :: g :: gs)) with (f ++ colon :: join (g :: gs)).
    apply seq_more; [exact Ef |]. apply IH; [discriminate | reflexivity].
Qed.

Lemma h16_all_complete (t : list ascii) (vs : list Z) :
  h16_seq t vs -> h16_all (fields t) = Ok vs.
Proof.
  induction 1 as [t v Hv | t ts v vs Hv _ IH].
  - rewrite fields_no_colon by (eapply is_h16_no_colon; eassumption).
    cbn [h16_all]. apply h16_field_iff in Hv. now rewrite Hv.
  - rewrite fields_app by (eapply is_h16_no_colon; eassumption).
    cbn [h16_all]. apply h16_field_iff in Hv. now rewrite Hv, IH.
Qed.

Lemma last_field_sound (f : list ascii) (vs : list Z) :
  last_field f = Ok vs -> ls_seq f vs.
Proof.
  unfold last_field. intros H.
  destruct (IPv4.matches f) as [p | e] eqn:E4.
  - injection H as <-. now apply ls_v4.
  - destruct (parse_all h16 f) as [v | e'] eqn:Ef; [| discriminate].
    cbn [bind] in H. injection H as <-.
    apply ls_h16. now apply h16_field_iff.
Qed.

Lemma ls_all_sound (fs : list (list ascii)) (vs : list Z) :
  fs <> [] -> ls_all fs = Ok vs -> ls_seq (join fs) vs.
Proof.
  revert vs. induction fs as [| f fs IH]; intros vs Hne H; [contradiction |].
  destruct fs as [| g gs].
  - simpl in H. simpl. now apply last_field_sound.
  - change (ls_all (f :: g :: gs))
      with (do v <- parse_all h16 f; do vs <- ls_all (g :: gs); Ok (v :: vs)) in H.
    destruct (parse_all h16 f) as [v | e] eqn:Ef; [| discriminate].
    cbn [bind] in H. apply h16_field_iff in Ef.
    destruct (ls_all (g :: gs)) as [ws | e] eqn:Efs; [| discriminate].
    cbn [bind] in H. injection H as <-.
    change (join (f :: g :: gs)) with (f ++ colon :: join (g :: gs)).
    apply ls_more; [exact Ef |]. apply IH; [discriminate | reflexivity].
Qed.

Lemma ls_all_complete (t : list ascii) (vs : list Z) :
  ls_seq t vs -> ls_all (fields t) = Ok vs.
Proof.
  induction 1 as [t v Hv | t p Hp | t ts v vs Hv _ IH].
  - rewrite fields_no_colon by (eapply is_h16_no_colon; eassumption).
    cbn [ls_all]. unfold last_field.
    destruct (IPv4.matches t) as [p | e] eqn:E4.
    + apply v4_text in E4 as (_ & _ & E). destruct Hv as (_ & Hd & _). congruence.
    + apply h16_field_iff in Hv. now rewrite Hv.
  - destruct (v4_text t p Hp) as (Hc & _ & _).
    rewrite fields_no_colon by exact Hc.
    cbn [ls_all]. unfold last_field. now rewrite Hp.
  - rewrite fields_app by (eapply is_h16_no_colon; eassumption).
    pose proof (fields_nonempty ts) as Hne.
    destruct (fields ts) as [| g gs]; [contradiction |].
    change (ls_all (t :: g :: gs))
      with (do v <- parse_all h16 t; do vs <- ls_all (g :: gs); Ok (v :: vs)).
    apply h16_field_iff in Hv. now rewrite Hv, IH.
Qed.

Lemma h16_seq_tidy (t : list ascii) (vs : list Z) :
  h16_seq t vs -> tidy t /\ t <> [].
Proof.
  induction 1 as [t v Hv | t ts v vs Hv _ [IH1 IH2]].
  - split; [apply no_colon_tidy | ]; [eapply is_h16_no_colon | eapply is_h16_nonempty];
      eassumption.
  - split.
    + apply tidy_cons_field; try assumption;
        [eapply is_h16_no_colon | eapply is_h16_nonempty]; eassumption.
    + destruct t; discriminate.
Qed.

Lemma ls_seq_tidy (t : list ascii) (vs : list Z) :
  ls_seq t vs -> tidy t /\ t <> [].
Proof.
  induction 1 as [t v Hv | t p Hp | t ts v vs Hv _ [IH1 IH2]].
  - split; [apply no_colon_tidy | ]; [eapply is_h16_no_colon | eapply is_h16_nonempty];
      eassumption.
  - destruct (v4_text t p Hp) as (Hc & Hne & _).
    split; [now apply no_colon_tidy | exact Hne].
  - split.
    + apply tidy_cons_field; try assumption;
        [eapply is_h16_no_colon | eapply is_h16_nonempty]; eassumption.
    + destruct t; discriminate.
Qed.

(** *** The matcher and the grammar *)

Lemma before_dc_iff (a : list ascii) (pre : list Z) :
  before_dc a = Ok pre <-> opt h16_seq a pre.
Proof.
  unfold before_dc, opt. split.
  - intros H. destruct a as [| c a].
    + left. now injection H as <-.
    + right. rewrite <- (join_fields (c :: a)).
      apply h16_all_sound; [apply fields_nonempty | exact H].
  - intros [[-> ->] | H]; [reflexivity |].
    destruct a as [| c a].
    + apply h16_seq_tidy in H as [_ H]. contradiction.
    + now apply h16_all_complete.
Qed.

Lemma after_dc_iff (b : list ascii) (post : list Z) :
  after_dc b = Ok post <-> opt ls_seq b post.
Proof.
  unfold after_dc, opt. split.
  - intros H. destruct b as [| c b].
    + left. now injection H as <-.
    + right. rewrite <- (join_fields (c :: b)).
      apply ls_all_sound; [apply fields_nonempty | exact H].
  - intros [[-> ->] | H]; [reflexivity |].
    destruct b as [| c b].
    + apply ls_seq_tidy in H as [_ H]. contradiction.
    + now apply ls_all_complete.
Qed.

Lemma opt_tidy (P : list ascii -> list Z -> Prop) (t : list ascii) (vs : list Z) :
  (forall t vs, P t vs -> tidy t /\ t <> []) -> opt P t vs -> tidy t.
Proof.
  intros HP [[-> _] | H]; [apply tidy_nil | apply (HP _ _ H)].
Qed.

(** The matcher accepts exactly the texts of the grammar. *)
Lemma ipv6_matches_iff (s : list ascii) (addr : list Z) :
  matches s = Ok addr <-> exists gs, address s gs /\ addr = bytes gs.
Proof.
  unfold matches. split.
  - intros H. destruct (find_dc s) as [[a b] |] eqn:F.
    + apply find_dc_some in F. subst s.
      destruct (find_dc b) as [? |]; [discriminate |].
      destruct (before_dc a) as [pre | e] eqn:Ea; [| discriminate].
      destruct (after_dc b) as [post | e] eqn:Eb; [| discriminate].
      cbn [bind] in H.
      destruct (List.length pre + List.length post <=? 7)%nat eqn:El;
        [| discriminate].
      injection H as <-. eexists. split; [| reflexivity].
      apply addr_compressed.
      * now apply before_dc_iff.
      * now apply after_dc_iff.
      * now apply Nat.leb_le.
    + destruct (ls_all (fields s)) as [gs | e] eqn:E; [| discriminate].
      cbn [bind] in H.
      destruct (List.length gs =? 8)%nat eqn:El; [| discriminate].
      injection H as <-. exists gs. split; [| reflexivity].
      apply addr_full; [| now apply Nat.eqb_eq].
      rewrite <- (join_fields s).
      apply ls_all_sound; [apply fields_nonempty | exact E].
  - intros (gs & A & ->). destruct A as [t gs Hls Hlen | a b pre post Ha Hb Hlen].
    + destruct (ls_seq_tidy t gs Hls) as [[C _ _] _].
      rewrite (find_dc_none t C), (ls_all_complete t gs Hls). cbn [bind].
      rewrite Hlen. reflexivity.
    + destruct (opt_tidy _ a pre h16_seq_tidy Ha) as [C E _].
      destruct (opt_tidy _ b post ls_seq_tidy Hb) as [Cb _ _].
      rewrite (find_dc_app a b C E), (find_dc_none b Cb).
      apply before_dc_iff in Ha. apply after_dc_iff in Hb.
      rewrite Ha, Hb. cbn [bind].
      apply Nat.leb_le in Hlen. rewrite Hlen. reflexivity.
Qed.

(** *** What an address denotes *)

Lemma hex_value_range (c : ascii) :
  is_hexdig c = true -> 0 <= hex_value c <= 15.
Proof.
  unfold is_hexdig, hex_value, is_digit.
  destruct (48 <=? code c) eqn:E1; destruct (code c <=? 57) eqn:E2;
  destruct (65 <=? code c) eqn:E3; destruct (code c <=? 70) eqn:E4;
  destruct (97 <=? code c) eqn:E5; destruct (code c <=? 102) eqn:E6;
  cbn [andb orb]; intros H; try discriminate;
  repeat match goal with
         | E : (_ <=? _) = true |- _ => apply Z.leb_le in E
         | E : (_ <=? _) = false |- _ => apply Z.leb_gt in E
         end; lia.
Qed.

Lemma is_h16_range (t : list ascii) (v : Z) : is_h16 t v -> group_ok v.
Proof.
  intros (Hlen & Hd & ->). unfold group_ok, hex.
  destruct t as [| a [| b [| c [| d [| e t]]]]]; cbn [List.length] in Hlen;
    try lia; cbn [forallb] in Hd; cbn [fold_left];
    repeat match type of Hd with
           | (_ && _) = true => let H := fresh "H" in apply andb_prop in Hd as [H Hd]
           end;
    repeat match goal with
           | H : is_hexdig ?x = true |- _ => apply hex_value_range in H
           end; lia.
Qed.

Lemma v4_groups_range (t : list ascii) (p : list Z) :
  IPv4.matches t = Ok p -> Forall group_ok (v4_groups p).
Proof.
  intros H. apply IPv4Facts.ipv4_matches_iff in H
    as (t1 & t2 & t3 & t4 & a & b & c & d & _ & O1 & O2 & O3 & O4 & ->).
  apply IPv4Facts.dec_octet_byte in O1, O2, O3, O4.
  unfold v4_groups, group_ok. cbn [nth].
  repeat constructor; lia.
Qed.

Lemma h16_seq_groups (t : list ascii) (vs : list Z) :
  h16_seq t vs -> Forall group_ok vs.
Proof.
  induction 1 as [t v Hv | t ts v vs Hv _ IH].
  - constructor; [eapply is_h16_range; eassumption | constructor].
  - constructor; [eapply is_h16_range; eassumption | exact IH].
Qed.

Lemma ls_seq_groups (t : list ascii) (vs : list Z) :
  ls_seq t vs -> Forall group_ok vs.
Proof.
  induction 1 as [t v Hv | t p Hp | t ts v vs Hv _ IH].
  - constructor; [eapply is_h16_range; eassumption | constructor].
  - eapply v4_groups_range; eassumption.
  - constructor; [eapply is_h16_range; eassumption | exact IH].
Qed.

Lemma opt_groups (P : list ascii -> list Z -> Prop) (t : list ascii) (vs : list Z) :
  (forall t vs, P t vs -> Forall group_ok vs) -> opt P t vs -> Forall group_ok vs.
Proof.
  intros HP [[_ ->] | H]; [constructor | apply (HP _ _ H)].
Qed.

Lemma repeat_groups (k : nat) : Forall group_ok (repeat 0 k).
Proof.
  induction k; simpl; constructor; [unfold group_ok; lia | assumption].
Qed.

(** Every address has exactly eight groups of 16 bits. *)
Lemma address_groups (s : list ascii) (gs : list Z) :
  address s gs -> List.length gs = 8%nat /\ Forall group_ok gs.
Proof.
  intros [t gs' Hls Hlen | a b pre post Ha Hb Hlen].
  - split; [exact Hlen | eapply ls_seq_groups; eassumption].
  - split.
    + rewrite !length_app, repeat_length. lia.
    + apply Forall_app. split; [eapply opt_groups; [exact h16_seq_groups | eassumption] |].
      apply Forall_app. split; [apply repeat_groups |].
      eapply opt_groups; [exact ls_seq_groups | eassumption].
Qed.

(** An address holds [::] at most once: never when the eight slots are
    written out, once otherwise. *)
Lemma address_count_dc (s : list ascii) (gs : list Z) :
  address s gs -> (count_dc s <= 1)%nat.
Proof.
  intros [t gs' Hls Hlen | a b pre post Ha Hb Hlen].
  - destruct (ls_seq_tidy t gs' Hls) as [[C _ _] _]. lia.
  - destruct (opt_tidy _ a pre h16_seq_tidy Ha) as [Ca Ea _].
    destruct (opt_tidy _ b post ls_seq_tidy Hb) as [Cb _ Sb].
    rewrite count_dc_app, Ca, Ea, count_dc_cons2.
    change (colon :: b) with ([colon] ++ b).
    rewrite count_dc_app, Cb, Sb. simpl. lia.
Qed.

Lemma bytes_length (gs : list Z) :
  List.length (bytes gs) = (2 * List.length gs)%nat.
Proof.
  unfold bytes. induction gs as [| g gs IH]; [reflexivity |].
  cbn [flat_map List.length app]. rewrite IH. lia.
Qed.

Lemma bytes_range (gs : list Z) :
  Forall group_ok gs -> Forall byte_ok (bytes gs).
Proof.
  unfold bytes, group_ok, byte_ok. induction 1 as [| g gs Hg _ IH]; [constructor |].
  cbn [flat_map app]. constructor; [| constructor; [| exact IH]].
  - split; [apply Z.div_pos; lia | apply Z.div_lt_upper_bound; lia].
  - apply Z.mod_pos_bound. lia.
Qed.

(** [get_u64] reads four groups as one big-endian number. *)
Lemma get_u64_bytes (g0 g1 g2 g3 : Z) (rest : list Z) :
  group_ok g0 -> group_ok g1 -> group_ok g2 -> group_ok g3 ->
  get_u64 (bytes (g0 :: g1 :: g2 :: g3 :: rest)) =
  g0 * 2 ^ 48 + g1 * 2 ^ 32 + g2 * 2 ^ 16 + g3.
Proof.
  unfold group_ok, get_u64, u64, bytes. intros H0 H1 H2 H3.
  cbn [flat_map app nth].
  rewrite !Z.shiftl_mul_pow2 by lia.
  pose proof (Z.div_mod g0 256 ltac:(lia)) as E0.
  pose proof (Z.div_mod g1 256 ltac:(lia)) as E1.
  pose proof (Z.div_mod g2 256 ltac:(lia)) as E2.
  pose proof (Z.div_mod g3 256 ltac:(lia)) as E3.
  pose proof (Z.mod_pos_bound g0 256 ltac:(lia)) as B0.
  pose proof (Z.mod_pos_bound g1 256 ltac:(lia)) as B1.
  pose proof (Z.mod_pos_bound g2 256 ltac:(lia)) as B2.
  pose proof (Z.mod_pos_bound g3 256 ltac:(lia)) as B3.
  set (a0 := g0 / 256) in *. set (b0 := g0 mod 256) in *.
  set (a1 := g1 / 256) in *. set (b1 := g1 mod 256) in *.
  set (a2 := g2 / 256) in *. set (b2 := g2 mod 256) in *.
  set (a3 := g3 / 256) in *. set (b3 := g3 mod 256) in *.
  assert (0 <= a0 < 256 /\ 0 <= a1 < 256 /\ 0 <= a2 < 256 /\ 0 <= a3 < 256)
    as (A0 & A1 & A2 & A3) by lia.
  change (2 ^ 64) with 18446744073709551616.
  change (2 ^ 56) with 72057594037927936.
  change (2 ^ 48) with 281474976710656.
  change (2 ^ 40) with 1099511627776.
  change (2 ^ 32) with 4294967296.
  change (2 ^ 24) with 16777216.
  change (2 ^ 16) with 65536.
  change (2 ^ 8) with 256.
  Z.div_mod_to_equations. lia.
Qed.

End IPv6Facts.

(** The table of [ipv6_address_bnf_test::run]: every [bad] string is
    rejected and every [check] finds the two halves it expects. *)
Lemma ipv6_address_bnf_test_run :
  forallb (fun s => negb (is_ok (IPv6.matches (Examples.str s))))
    [""; "0"; "0:1.2.3.4"; "0:0:0:0:0:0:0::1.2.3.4"; "0:0:0:0:0:0:0:1.2.3.4";
     "::FFFF:999.2.3.4"; "0"; ":"; "::0::"; ":0::"; "0::0:x"; "x::"; "0:12";
     "0:123"; "::1."; "::1.2"; "::1.2"; "::1.2x"; "::1.2."; "::1.2.3";
     "::1.2.3"; "::1.2.3x"; "::1.2.3."; "::1.2.3.4x"]%string = true /\
  forallb (fun '(s, u0, u1) => IPv6.check (Examples.str s) u0 u1)
    [("1:2:3:4:5:6:7:8", 0x0001000200030004, 0x0005000600070008);
     ("::2:3:4:5:6:7:8", 0x0000000200030004, 0x0005000600070008);
     ("1::3:4:5:6:7:8", 0x0001000000030004, 0x0005000600070008);
     ("1:2::4:5:6:7:8", 0x0001000200000004, 0x0005000600070008);
     ("1:2:3::5:6:7:8", 0x0001000200030000, 0x0005000600070008);
     ("1:2:3:4::6:7:8", 0x0001000200030004, 0x0000000600070008);
     ("1:2:3:4:5::7:8", 0x0001000200030004, 0x0005000000070008);
     ("1:2:3:4:5:6::8", 0x0001000200030004, 0x0005000600000008);
     ("1:2:3:4:5:6:7::", 0x0001000200030004, 0x0005000600070000);
     ("::3:4:5:6:7:8", 0x0000000000030004, 0x0005000600070008);
     ("1::4:5:6:7:8", 0x0001000000000004, 0x0005000600070008);
     ("1:2::5:6:7:8", 0x0001000200000000, 0x0005000600070008);
     ("1:2:3::6:7:8", 0x0001000200030000, 0x0000000600070008);
     ("1:2:3:4::7:8", 0x0001000200030004, 0x0000000000070008);
     ("1:2:3:4:5::8", 0x0001000200030004, 0x0005000000000008);
     ("1:2:3:4:5:6::", 0x0001000200030004, 0x0005000600000000);
     ("::4:5:6:7:8", 0x0000000000000004, 0x0005000600070008);
     ("1::5:6:7:8", 0x0001000000000000, 0x0005000600070008);
     ("1:2::6:7:8", 0x0001000200000000, 0x0000000600070008);
     ("1:2:3::7:8", 0x0001000200030000, 0x0000000000070008);
     ("1:2:3:4::8", 0x0001000200030004, 0x0000000000000008);
     ("1:2:3:4:5::", 0x0001000200030004, 0x0005000000000000);
     ("::5:6:7:8", 0x0000000000000000, 0x0005000600070008);
     ("1::6:7:8", 0x0001000000000000, 0x0000000600070008);
     ("1:2::7:8", 0x0001000200000000, 0x0000000000070008);
     ("1:2:3::8", 0x0001000200030000, 0x0000000000000008);
     ("1:2:3:4::", 0x0001000200030004, 0x0000000000000000);
     ("::6:7:8", 0x0000000000000000, 0x0000000600070008);
     ("1::7:8", 0x0001000000000000, 0x0000000000070008);
     ("1:2::8", 0x0001000200000000, 0x0000000000000008);
     ("1:2:3::", 0x0001000200030000, 0x0000000000000000);
     ("::7:8", 0x0000000000000000, 0x0000000000070008);
     ("1::8", 0x0001000000000000, 0x0000000000000008);
     ("1:2::", 0x0001000200000000, 0x0000000000000000);
     ("::8", 0x0000000000000000, 0x0000000000000008);
     ("1::", 0x0001000000000000, 0x0000000000000000);
     ("::0", 0, 0);
     ("::1", 0, 1);
     ("0:0:0::1", 0, 1);
     ("0:0:0:0:0:0:0:0", 0, 0);
     ("0:0:0:0:0:0:0.0.0.0", 0, 0);
     ("::1.2.3.4", 0, 0x01020304);
     ("::1234:5678", 0, 0x0000000012345678);
     ("::FFFF:1.2.3.4", 0, 0x0000ffff01020304);
     ("1:2::3:4:5", 0x0001000200000000, 0x0000000300040005);
     ("::1:2:3:4:5", 0x0000000000000001, 0x0002000300040005);
     ("1:2:3:4:5::", 0x0001000200030004, 0x0005000000000000);
     ("1:2:0:0:0:3:4:5", 0x0001000200000000, 0x0000000300040005);
     ("1:2:3:4:5:0:0:0", 0x0001000200030004, 0x0005000000000000);
     ("0:0:0:1:2:3:4:5", 0x0000000000000001, 0x0002000300040005);
     ("0:0:0:0:0:FFFF:102:405", 0, 0x0000ffff01020405);
     ("0000:0000:0000:0000:0000:0000:0000:0000", 0, 0);
     ("1234:5678:9ABC:DEF0:0000:0000:0000:0000", 0x123456789abcdef0, 0);
     ("2001:0DB8:0A0B:12F0:0000:0000:0000:0001", 0x20010db80a0b12f0, 0x0000000000000001);
     ("2001:DB8:3333:4444:5555:6666:7777:8888", 0x20010db833334444, 0x5555666677778888);
     ("2001:DB8:3333:4444:CCCC:DDDD:EEEE:FFFF", 0x20010db833334444, 0xccccddddeeeeffff);
     ("2001:db8::", 0x20010db800000000, 0);
     ("2001:DB8::", 0x20010db800000000, 0);
     ("2001:DB8:A0B:12F0::1", 0x20010db80a0b12f0, 1);
     ("2001:db8::1234:5678", 0x20010db800000000, 0x12345678);
     ("2001:DB8::1234:5678", 0x20010db800000000, 0x0000000012345678);
     ("2001:DB8:1::AB9:C0A8:102", 0x20010db800010000, 0x00000ab9c0a80102);
     ("2001:db8:1::ab9:C0A8:102", 0x20010db800010000, 0x00000ab9c0a80102);
     ("2001:0DB8:0A0B:12F0:0:0:0:1", 0x20010db80a0b12f0, 1);
     ("2001:db8:3333:4444:5555:6666:7777:8888", 0x20010db833334444, 0x5555666677778888);
     ("2001:db8:3333:4444:CCCC:DDDD:EEEE:FFFF", 0x20010db833334444, 0xccccddddeeeeffff);
     ("2001:0DB8:0001:0000:0000:0AB9:C0A8:0102", 0x20010db800010000, 0x00000ab9c0a80102);
     ("2001:0db8:0a0b:12f0:0000:0000:0000:0001", 0x20010db80a0b12f0, 1);
     ("2001:0db8:0001:0000:0000:0ab9:C0A8:0102", 0x20010db800010000, 0x0ab9c0a80102);
     ("3FFE:1900:4545:3:200:F8FF:FE21:67CF", 0x3ffe190045450003, 0x0200f8fffe2167cf);
     ("684D:1111:222:3333:4444:5555:6:77", 0x684d111102223333, 0x4444555500060077);
     ("fe80:0:0:0:200:f8ff:fe21:67cf", 0xfe80000000000000, 0x0200f8fffe2167cf);
     ("FE80:0:0:0:200:F8FF:FE21:67CF", 0xfe80000000000000, 0x0200f8fffe2167cf);
     ("FFFF:0:0:0:0:0:0:1", 0xffff000000000000, 1);
     ("FFFF::1", 0xffff000000000000, 1)]%string = true.
Proof. split; vm_compute; reflexivity. Qed.


(** ** Further properties of [detail::parts] *)

Module PartsMore.

Import Parts PartsFacts IndexFacts.

Lemma tabulate_ext {A : Type} (n : nat) (f g : nat -> A) :
  (forall i, (i < n)%nat -> f i = g i) -> tabulate n f = tabulate n g.
Proof.
  intros H. unfold tabulate. apply map_ext_in. intros i Hi.
  apply in_seq in Hi. apply H. lia.
Qed.

Lemma tabulate_self (l : list Z) (n : nat) :
  List.length l = n -> tabulate n (fun i => nth i l 0) = l.
Proof.
  intros H. apply (nth_ext _ _ 0 0).
  - now rewrite tabulate_length.
  - intros i Hi. rewrite tabulate_length in Hi. now rewrite tabulate_nth.
Qed.

Lemma resize_resize (p : parts) (id : nat) (n m : Z) :
  (id < id_end)%nat -> resize (resize p id n) id m = resize p id m.
Proof.
  intros Hid. unfold resize at 1 3.
  cbn [decoded ip_addr nseg nparam port_number host_type].
  f_equal. apply tabulate_ext. intros i Hi.
  unfold length. rewrite !off_resize by idlia.
  replace (id + 1 <=? id + 1)%nat with true by (symmetry; apply Nat.leb_le; lia).
  replace (id + 1 <=? id)%nat with false by (symmetry; apply Nat.leb_gt; lia).
  destruct (id + 1 <=? i)%nat; [| reflexivity].
  unfold length. modarith.
Qed.

Lemma resize_comm_lt (p : parts) (i j : nat) (n m : Z) :
  (i < j)%nat -> (j < id_end)%nat ->
  resize (resize p i n) j m = resize (resize p j m) i n.
Proof.
  intros Hij Hj. unfold resize at 1 3.
  cbn [decoded ip_addr nseg nparam port_number host_type].
  f_equal. apply tabulate_ext. intros k Hk.
  unfold length. rewrite !off_resize by idlia.
  replace (i + 1 <=? j + 1)%nat with true by (symmetry; apply Nat.leb_le; lia).
  replace (i + 1 <=? j)%nat with true by (symmetry; apply Nat.leb_le; lia).
  replace (j + 1 <=? i + 1)%nat with false by (symmetry; apply Nat.leb_gt; lia).
  replace (j + 1 <=? i)%nat with false by (symmetry; apply Nat.leb_gt; lia).
  unfold length.
  destruct (Nat.leb_spec (j + 1) k) as [H1 | H1];
    destruct (Nat.leb_spec (i + 1) k) as [H2 | H2]; try lia; try reflexivity.
  modarith.
Qed.

(** Resizing a component to the length it has changes nothing. *)
Lemma resize_same (p : parts) (id : nat) :
  index_ok p -> (id < id_end)%nat -> resize p id (length p id) = p.
Proof.
  intros OK Hid. destruct p as [o d a ns np pn ht].
  unfold resize. cbn [decoded ip_addr nseg nparam port_number host_type].
  f_equal.
  transitivity (tabulate (id_end + 1) (fun i => nth i o 0));
    [| apply tabulate_self; exact (ok_size _ OK)].
  apply tabulate_ext. intros i Hi.
  destruct (id + 1 <=? i)%nat; [| reflexivity].
  pose proof (off_in_range _ OK i ltac:(idlia)) as Hr.
  unfold off in *. cbn [offset] in *.
  unfold SizeT.in_range in Hr. modarith.
Qed.

Lemma off_resize_exact (p : parts) (id : nat) (n : Z) (j : nat) :
  index_ok p -> admissible p (op_resize id n) -> (j <= id_end)%nat ->
  off (resize p id n) j =
    if (id + 1 <=? j)%nat then off p j + n - length p id else off p j.
Proof.
  intros OK (Hid & Hn & Hfit) Hj. rewrite off_resize by exact Hj.
  destruct (Nat.leb_spec (id + 1) j) as [H | H]; [| reflexivity].
  pose proof (length_exact p OK id Hid) as Hlen.
  apply add_sub_exact.
  pose proof (off_mono p OK (id + 1) j H Hj).
  pose proof (off_mono p OK j id_end Hj (Nat.le_refl _)).
  pose proof (off_nonneg p OK id ltac:(idlia)).
  unfold SizeT.in_range in *. lia.
Qed.

Lemma off_split_exact (p : parts) (id : nat) (n : Z) (j : nat) :
  index_ok p -> admissible p (op_split id n) -> (j <= id_end)%nat ->
  off (split p id n) j = if (j =? id + 1)%nat then off p id + n else off p j.
Proof.
  intros OK (Hid & Hn & Hle) Hj. rewrite off_split by exact Hj.
  destruct (Nat.eqb_spec j (id + 1)) as [H | H]; [| reflexivity].
  pose proof (length_exact p OK id ltac:(idlia)) as Hlen.
  unfold SizeT.add. apply wrap_small.
  pose proof (off_in_range p OK id ltac:(idlia)).
  pose proof (off_in_range p OK (id + 1) ltac:(idlia)).
  unfold SizeT.in_range in *. lia.
Qed.

(** The components [b], ..., [b + k - 1], in order, are the bytes from
    [offset[b]] to [offset[b + k]], and their lengths add up. *)
Lemma concat_range (p : parts) (s : list ascii) (b k : nat) :
  index_ok p -> (b + k <= id_end)%nat ->
  List.concat (map (fun i => get p i s) (seq b k)) =
    view s (off p b) (off p (b + k) - off p b) /\
  fold_right Z.add 0 (map (length p) (seq b k)) = off p (b + k) - off p b.
Proof.
  intros OK. induction k as [| k IH]; intros Hk.
  - rewrite Nat.add_0_r, Z.sub_diag. simpl. unfold view. now rewrite firstn_O.
  - destruct (IH ltac:(lia)) as [IH1 IH2].
    rewrite seq_S, !map_app, List.concat_app, IH1. cbn [map List.concat].
    rewrite app_nil_r, (get_view p s OK) by idlia.
    replace (b + S k)%nat with (b + k + 1)%nat by lia.
    split.
    + apply view_app.
      * split; [apply (off_nonneg p OK) | apply (off_mono p OK)]; idlia.
      * apply (off_mono p OK); idlia.
    + rewrite fold_right_app. cbn [fold_right].
      rewrite (length_exact p OK (b + k)) by idlia.
      clear IH IH1.
      assert (forall l z, fold_right Z.add z l = fold_right Z.add 0 l + z) as Hf.
      { induction l as [| x l IHl]; intros z; cbn [fold_right]; [lia |].
        rewrite IHl. lia. }
      rewrite Hf, IH2. lia.
Qed.

End PartsMore.

(** X1: [resize(id, n)] gives component [id] the length [n], also when
    [n] is smaller than the old length and [n - n0] wraps around, and keeps
    the length of every other component; the total length changes by the
    difference. *)
Theorem resize_sets_length (p : Parts.parts) (id : nat) (n : Z) :
  Parts.reachable p -> Parts.admissible p (Parts.op_resize id n) ->
  (forall i, (i < Parts.id_end)%nat ->
     Parts.length (Parts.resize p id n) i =
       if (i =? id)%nat then n else Parts.length p i) /\
  Parts.off (Parts.resize p id n) Parts.id_end =
    Parts.off p Parts.id_end - Parts.length p id + n.
Proof.
  intros Hr Hadm. pose proof (PartsFacts.reachable_ok p Hr) as OK. split.
  - intros i Hi. now apply PartsFacts.resize_length.
  - rewrite (PartsMore.off_resize_exact p id n Parts.id_end OK Hadm (Nat.le_refl _)).
    destruct Hadm as (Hid & _).
    replace (id + 1 <=? Parts.id_end)%nat with true
      by (symmetry; apply Nat.leb_le; lia).
    lia.
Qed.

(** X1 at [http://x]: the host grown from one byte to eleven, and shrunk
    to none. *)
Lemma resize_sets_length_http_x :
  (map (Parts.length MoreExamples.longer_host) (seq 0 Parts.id_end) =
     [5; 2; 0; 11; 0; 0; 0; 0] /\
   Parts.off MoreExamples.longer_host Parts.id_end = 18) /\
  (map (Parts.length MoreExamples.no_host) (seq 0 Parts.id_end) =
     [5; 2; 0; 0; 0; 0; 0; 0] /\
   Parts.off MoreExamples.no_host Parts.id_end = 7).
Proof.
  assert (Hr : Parts.reachable Examples.http_x_index).
  { unfold Examples.http_x_index.
    repeat (apply Parts.reach_step; [| vm_compute; repeat split; try lia; congruence]).
    apply Parts.reach_ctor. }
  split.
  - destruct (resize_sets_length Examples.http_x_index Parts.id_host 11 Hr)
      as [_ H]; [vm_compute; repeat split; try lia; congruence |].
    split; [vm_compute; reflexivity | exact H].
  - destruct (resize_sets_length Examples.http_x_index Parts.id_host 0 Hr)
      as [_ H]; [vm_compute; repeat split; try lia; congruence |].
    split; [vm_compute; reflexivity | exact H].
Defined.

(** X2: [split(id, n)] leaves [n] bytes to component [id] and hands the
    rest of its bytes to component [id + 1]; every other component keeps
    its length and the total length stays what it was. *)
Theorem split_moves_boundary (p : Parts.parts) (id : nat) (n : Z) :
  Parts.reachable p -> Parts.admissible p (Parts.op_split id n) ->
  (forall i, (i < Parts.id_end)%nat ->
     Parts.length (Parts.split p id n) i =
       if (i =? id)%nat then n
       else if (i =? id + 1)%nat
            then Parts.length p id + Parts.length p (id + 1) - n
            else Parts.length p i) /\
  Parts.off (Parts.split p id n) Parts.id_end = Parts.off p Parts.id_end.
Proof.
  intros Hr Hadm. pose proof (PartsFacts.reachable_ok p Hr) as OK. split.
  - intros i Hi. now apply PartsFacts.split_length.
  - rewrite (PartsMore.off_split_exact p id n Parts.id_end OK Hadm (Nat.le_refl _)).
    destruct Hadm as (Hid & _).
    replace (Parts.id_end =? id + 1)%nat with false
      by (symmetry; apply Nat.eqb_neq; lia).
    reflexivity.
Qed.

(** X2 at [//ab]: of the four bytes stored under [id_user] two stay, two
    go to [id_pass]. *)
Lemma split_moves_boundary_authority :
  map (Parts.length (Parts.split MoreExamples.authority_unsplit Parts.id_user 2))
    (seq 0 Parts.id_end) = [0; 2; 2; 0; 0; 0; 0; 0] /\
  Parts.off (Parts.split MoreExamples.authority_unsplit Parts.id_user 2)
    Parts.id_end = 4.
Proof.
  destruct (split_moves_boundary MoreExamples.authority_unsplit Parts.id_user 2)
    as [_ H].
  - unfold MoreExamples.authority_unsplit.
    apply Parts.reach_step; [apply Parts.reach_ctor |].
    vm_compute. repeat split; try lia; congruence.
  - vm_compute. repeat split; try lia; congruence.
  - split; [vm_compute; reflexivity | exact H].
Defined.

(** X3: [split] moves no byte: over any buffer the bytes of components
    [id] and [id + 1] together are what they were, and every other
    component has the bytes it had. *)
Theorem split_keeps_bytes (p : Parts.parts) (id : nat) (n : Z) (s : list ascii) :
  Parts.reachable p -> Parts.admissible p (Parts.op_split id n) ->
  Parts.get (Parts.split p id n) id s ++ Parts.get (Parts.split p id n) (id + 1) s =
    Parts.get p id s ++ Parts.get p (id + 1) s /\
  (forall i, (i < Parts.id_end)%nat -> i <> id -> i <> (id + 1)%nat ->
     Parts.get (Parts.split p id n) i s = Parts.get p i s).
Proof.
  intros Hr Hadm. pose proof (PartsFacts.reachable_ok p Hr) as OK.
  pose proof (PartsFacts.split_ok p id n OK Hadm) as OK'.
  pose proof (fun j Hj => PartsMore.off_split_exact p id n j OK Hadm Hj) as Hoff.
  destruct Hadm as (Hid & Hn & Hle).
  pose proof (PartsFacts.length_exact p OK id ltac:(Parts.idlia)) as Hlen.
  pose proof (PartsFacts.off_nonneg p OK id ltac:(Parts.idlia)) as H0.
  pose proof (Parts.ok_mono p OK id ltac:(Parts.idlia)) as H1.
  pose proof (Parts.ok_mono p OK (id + 1) ltac:(Parts.idlia)) as H2.
  split.
  - rewrite !(IndexFacts.get_view _ s OK'), !(IndexFacts.get_view p s OK)
      by Parts.idlia.
    rewrite !Hoff by Parts.idlia.
    rewrite Nat.eqb_refl.
    replace (id =? id + 1)%nat with false by (symmetry; apply Nat.eqb_neq; lia).
    replace (id + 1 + 1 =? id + 1)%nat with false
      by (symmetry; apply Nat.eqb_neq; lia).
    unfold SizeT.in_range in Hn.
    rewrite !IndexFacts.view_app by lia. reflexivity.
  - intros i Hi Hne Hne1.
    rewrite (IndexFacts.get_view _ s OK'), (IndexFacts.get_view p s OK)
      by exact Hi.
    rewrite !Hoff by Parts.idlia.
    replace (i =? id + 1)%nat with false by (symmetry; apply Nat.eqb_neq; lia).
    replace (i + 1 =? id + 1)%nat with false by (symmetry; apply Nat.eqb_neq; lia).
    reflexivity.
Qed.

(** X3 at [//ab]: [//ab] under [id_user] becomes [//] under [id_user] and
    [ab] under [id_pass]. *)
Lemma split_keeps_bytes_authority :
  map (fun i => Parts.get (Parts.split MoreExamples.authority_unsplit
                             Parts.id_user 2) i MoreExamples.authority_buffer)
    [Parts.id_user; Parts.id_pass] = map Examples.str ["//"; "ab"]%string /\
  Parts.get (Parts.split MoreExamples.authority_unsplit Parts.id_user 2)
    Parts.id_user MoreExamples.authority_buffer ++
  Parts.get (Parts.split MoreExamples.authority_unsplit Parts.id_user 2)
    (Parts.id_user + 1) MoreExamples.authority_buffer =
  Parts.get MoreExamples.authority_unsplit Parts.id_user
    MoreExamples.authority_buffer ++
  Parts.get MoreExamples.authority_unsplit (Parts.id_user + 1)
    MoreExamples.authority_buffer.
Proof.
  split; [vm_compute; reflexivity |].
  destruct (split_keeps_bytes MoreExamples.authority_unsplit Parts.id_user 2
              MoreExamples.authority_buffer) as [H _].
  - unfold MoreExamples.authority_unsplit.
    apply Parts.reach_step; [apply Parts.reach_ctor |].
    vm_compute. repeat split; try lia; congruence.
  - vm_compute. repeat split; try lia; congruence.
  - exact H.
Defined.

(** X4: for [begin <= end], [get(begin, end, s)] is the concatenation of
    the components [begin], ..., [end - 1] in order, and
    [length(begin, end)] is the sum of their lengths. *)
Theorem range_is_concat (p : Parts.parts) (b e : nat) (s : list ascii) :
  Parts.reachable p -> (b <= e)%nat -> (e <= Parts.id_end)%nat ->
  Parts.get_range p b e s =
    List.concat (map (fun i => Parts.get p i s) (seq b (e - b))) /\
  Parts.length_range p b e = sum_lengths p b e.
Proof.
  intros Hr Hbe He. pose proof (PartsFacts.reachable_ok p Hr) as OK.
  destruct (PartsMore.concat_range p s b (e - b) OK ltac:(lia)) as [H1 H2].
  replace (b + (e - b))%nat with e in * by lia.
  split.
  - rewrite H1. now apply IndexFacts.get_range_view.
  - unfold sum_lengths, Parts.length_range. rewrite H2.
    now apply PartsFacts.length_range_exact.
Qed.

(** X4 at [http://x]: the authority, components [id_user] to [id_port]. *)
Lemma range_is_concat_http_x :
  Parts.get_range Examples.http_x_index Parts.id_user Parts.id_path
    Examples.http_x_buffer = Examples.str "//x" /\
  Parts.length_range Examples.http_x_index Parts.id_user Parts.id_path = 3 /\
  Parts.get_range Examples.http_x_index Parts.id_user Parts.id_path
    Examples.http_x_buffer =
  List.concat (map (fun i => Parts.get Examples.http_x_index i
                               Examples.http_x_buffer)
                 (seq Parts.id_user (Parts.id_path - Parts.id_user))).
Proof.
  split; [vm_compute; reflexivity |].
  split; [vm_compute; reflexivity |].
  destruct (range_is_concat Examples.http_x_index Parts.id_user Parts.id_path
              Examples.http_x_buffer) as [H _].
  - unfold Examples.http_x_index.
    repeat (apply Parts.reach_step; [| vm_compute; repeat split; try lia; congruence]).
    apply Parts.reach_ctor.
  - unfold Parts.id_user, Parts.id_path. lia.
  - unfold Parts.id_path, Parts.id_end. lia.
  - exact H.
Defined.

(** X5: of two calls of [resize] on the same component the last one
    decides: the index is the one the second call alone produces, whatever
    the first length was and whatever the index held. *)
Theorem resize_last_wins (p : Parts.parts) (id : nat) (n m : Z) :
  (id < Parts.id_end)%nat ->
  Parts.resize (Parts.resize p id n) id m = Parts.resize p id m.
Proof. exact (PartsMore.resize_resize p id n m). Qed.

(** X5 at [http://x]: the host resized to eleven bytes and then to none. *)
Lemma resize_last_wins_http_x :
  Parts.resize MoreExamples.longer_host Parts.id_host 0 = MoreExamples.no_host.
Proof.
  apply (resize_last_wins Examples.http_x_index Parts.id_host 11 0).
  unfold Parts.id_host, Parts.id_end. lia.
Defined.

(** X6: resizing a component and then resizing it back to the length it
    had restores the index exactly. *)
Theorem resize_back_restores (p : Parts.parts) (id : nat) (n : Z) :
  Parts.reachable p -> (id < Parts.id_end)%nat ->
  Parts.resize (Parts.resize p id n) id (Parts.length p id) = p.
Proof.
  intros Hr Hid. rewrite PartsMore.resize_resize by exact Hid.
  apply PartsMore.resize_same; [now apply PartsFacts.reachable_ok | exact Hid].
Qed.

(** X6 at [http://x]: the host grown to eleven bytes and cut back to
    one. *)
Lemma resize_back_restores_http_x :
  Parts.resize MoreExamples.longer_host Parts.id_host 1 = Examples.http_x_index.
Proof.
  apply (resize_back_restores Examples.http_x_index Parts.id_host 11).
  - unfold Examples.http_x_index.
    repeat (apply Parts.reach_step; [| vm_compute; repeat split; try lia; congruence]).
    apply Parts.reach_ctor.
  - unfold Parts.id_host, Parts.id_end. lia.
Defined.

(** X7: calls of [resize] on two different components commute: either
    order produces the same index. *)
Theorem resize_commutes (p : Parts.parts) (i j : nat) (n m : Z) :
  i <> j -> (i < Parts.id_end)%nat -> (j < Parts.id_end)%nat ->
  Parts.resize (Parts.resize p i n) j m = Parts.resize (Parts.resize p j m) i n.
Proof.
  intros Hne Hi Hj. destruct (Nat.lt_ge_cases i j) as [H | H].
  - now apply PartsMore.resize_comm_lt.
  - symmetry. apply PartsMore.resize_comm_lt; [lia | exact Hi].
Qed.

(** X7 at the empty index: [http:] and [x] laid out scheme first or host
    first. *)
Lemma resize_commutes_empty :
  Parts.resize (Parts.resize (Parts.ctor Examples.empty_storage)
                  Parts.id_scheme 5) Parts.id_host 1 =
  Parts.resize (Parts.resize (Parts.ctor Examples.empty_storage)
                  Parts.id_host 1) Parts.id_scheme 5.
Proof.
  apply resize_commutes; unfold Parts.id_scheme, Parts.id_host, Parts.id_end; lia.
Defined.

(** ** Further properties of the inline members of [class url] *)

(** X8: a url built by [url(storage_ptr)] has capacity 0, host type
    [none], no segments and no parameters, and every component empty;
    [host()] returns the encoded host without consulting the decoder,
    whereas [fragment()] hands the decoder [decoded[id_frag]], which the
    constructor has not written: it is what the storage held. *)
Theorem constructed_url_accessors
    (m : Parts.storage)
    (encoded_host encoded_fragment : Url.url -> list ascii)
    (pct_decode_unchecked : list ascii -> Z -> list ascii) :
  UrlInline.capacity (UrlInline.construct m) = 0 /\
  Url.host_type (UrlInline.construct m) = urls.none /\
  segments_type.size (segments_type.of_url (UrlInline.construct m)) = 0 /\
  segments_type.empty (segments_type.of_url (UrlInline.construct m)) = true /\
  params_type.size (params_type.of_url (UrlInline.construct m)) = 0 /\
  params_type.empty (params_type.of_url (UrlInline.construct m)) = true /\
  (forall i, (i < Parts.id_end)%nat ->
     Parts.length (Url.pt_ (UrlInline.construct m)) i = 0) /\
  Url.host encoded_host pct_decode_unchecked (UrlInline.construct m) =
    encoded_host (UrlInline.construct m) /\
  UrlInline.fragment encoded_fragment pct_decode_unchecked (UrlInline.construct m) =
    pct_decode_unchecked (encoded_fragment (UrlInline.construct m))
      (nth Parts.id_frag (Parts.raw_decoded m) 0).
Proof.
  repeat split.
  intros i _. unfold UrlInline.construct, Parts.ctor, Parts.length.
  cbn [Url.pt_]. now rewrite !PartsFacts.off_clear.
Qed.

(** X9: over an index that [parts::clear] has reset, every component is
    empty and [host()] returns the encoded host without decoding, but the
    views still report the segment and parameter counts from before the
    call, and [fragment()] still hands the decoder the decoded length the
    fragment had before. *)
Theorem cleared_index_accessors
    (p : Parts.parts) (s : list ascii) (c : Z)
    (encoded_host encoded_fragment : Url.url -> list ascii)
    (pct_decode_unchecked : list ascii -> Z -> list ascii) :
  (forall i, (i < Parts.id_end)%nat ->
     Parts.length (Url.pt_ (Url.mk_url s (Parts.clear p) c)) i = 0) /\
  Url.host encoded_host pct_decode_unchecked (Url.mk_url s (Parts.clear p) c) =
    encoded_host (Url.mk_url s (Parts.clear p) c) /\
  segments_type.size (segments_type.of_url (Url.mk_url s (Parts.clear p) c)) =
    Parts.nseg p /\
  params_type.size (params_type.of_url (Url.mk_url s (Parts.clear p) c)) =
    Parts.nparam p /\
  UrlInline.fragment encoded_fragment pct_decode_unchecked
    (Url.mk_url s (Parts.clear p) c) =
    pct_decode_unchecked (encoded_fragment (Url.mk_url s (Parts.clear p) c))
      (Parts.decoded_at p Parts.id_frag).
Proof.
  repeat split.
  intros i _. unfold Parts.length. cbn [Url.pt_].
  now rewrite !PartsFacts.off_clear.
Qed.

(** ** Further properties of the test helpers *)

Module HelperFacts.

Lemma bytes4 (p : list Z) :
  is_bytes 4 p ->
  exists a b c d, p = [a; b; c; d] /\
    0 <= a <= 255 /\ 0 <= b <= 255 /\ 0 <= c <= 255 /\ 0 <= d <= 255.
Proof.
  intros [Hlen Hb].
  destruct p as [| a [| b [| c [| d [| e p]]]]]; try discriminate Hlen.
  repeat match goal with
         | H : Forall _ (_ :: _) |- _ => inversion H; subst; clear H
         end.
  exists a, b, c, d. repeat split; lia.
Qed.

Lemma bytes8 (p : list Z) :
  is_bytes 8 p ->
  exists b0 b1 b2 b3 b4 b5 b6 b7, p = [b0; b1; b2; b3; b4; b5; b6; b7] /\
    0 <= b0 <= 255 /\ 0 <= b1 <= 255 /\ 0 <= b2 <= 255 /\ 0 <= b3 <= 255 /\
    0 <= b4 <= 255 /\ 0 <= b5 <= 255 /\ 0 <= b6 <= 255 /\ 0 <= b7 <= 255.
Proof.
  intros [Hlen Hb].
  destruct p as [| b0 [| b1 [| b2 [| b3 [| b4 [| b5 [| b6 [| b7 [| b8 p]]]]]]]]];
    try discriminate Hlen.
  repeat match goal with
         | H : Forall _ (_ :: _) |- _ => inversion H; subst; clear H
         end.
  exists b0, b1, b2, b3, b4, b5, b6, b7. repeat split; lia.
Qed.

Lemma get_u64_sum (b0 b1 b2 b3 b4 b5 b6 b7 : Z) :
  0 <= b0 <= 255 -> 0 <= b1 <= 255 -> 0 <= b2 <= 255 -> 0 <= b3 <= 255 ->
  0 <= b4 <= 255 -> 0 <= b5 <= 255 -> 0 <= b6 <= 255 -> 0 <= b7 <= 255 ->
  IPv6.get_u64 [b0; b1; b2; b3; b4; b5; b6; b7] =
    b0 * 2 ^ 56 + b1 * 2 ^ 48 + b2 * 2 ^ 40 + b3 * 2 ^ 32 +
    b4 * 2 ^ 24 + b5 * 2 ^ 16 + b6 * 2 ^ 8 + b7.
Proof.
  intros. unfold IPv6.get_u64, IPv6.u64. cbn [nth].
  rewrite !Z.shiftl_mul_pow2 by lia.
  change (2 ^ 64) with 18446744073709551616.
  change (2 ^ 56) with 72057594037927936.
  change (2 ^ 48) with 281474976710656.
  change (2 ^ 40) with 1099511627776.
  change (2 ^ 32) with 4294967296.
  change (2 ^ 24) with 16777216.
  change (2 ^ 16) with 65536.
  change (2 ^ 8) with 256.
  Z.div_mod_to_equations. lia.
Qed.

(** A number written in base 256: the digits, the most significant
    first, are determined by the number. *)
Lemma digit_unique (a a' r r' : Z) :
  0 <= r <= 255 -> 0 <= r' <= 255 -> 256 * a + r = 256 * a' + r' ->
  a = a' /\ r = r'.
Proof. intros. lia. Qed.

Lemma base256_unique (l l' : list Z) (acc acc' : Z) :
  List.length l = List.length l' ->
  Forall (fun x => 0 <= x <= 255) l -> Forall (fun x => 0 <= x <= 255) l' ->
  fold_left (fun a b => 256 * a + b) l acc =
  fold_left (fun a b => 256 * a + b) l' acc' ->
  acc = acc' /\ l = l'.
Proof.
  revert l' acc acc'. induction l as [| b l IH]; intros [| b' l'] acc acc' Hlen Hl Hl' H;
    try discriminate Hlen.
  - now split.
  - inversion Hl; subst. inversion Hl'; subst. cbn [fold_left] in H.
    injection Hlen as Hlen.
    destruct (IH l' _ _ Hlen ltac:(assumption) ltac:(assumption) H) as [Hd ->].
    apply digit_unique in Hd as [-> ->]; [now split | assumption | assumption].
Qed.

Lemma get_u64_base256 (p : list Z) :
  is_bytes 8 p ->
  IPv6.get_u64 p = fold_left (fun a b => 256 * a + b) p 0.
Proof.
  intros Hp. apply bytes8 in Hp
    as (b0 & b1 & b2 & b3 & b4 & b5 & b6 & b7 & -> & ?).
  rewrite get_u64_sum by tauto. cbn [fold_left].
  change (2 ^ 56) with 72057594037927936.
  change (2 ^ 48) with 281474976710656.
  change (2 ^ 40) with 1099511627776.
  change (2 ^ 32) with 4294967296.
  change (2 ^ 24) with 16777216.
  change (2 ^ 16) with 65536.
  change (2 ^ 8) with 256.
  ring.
Qed.

End HelperFacts.

(** X10: the number [check] of the IPv4 test builds from four bytes is
    below [2^32] and determines the bytes: two addresses with the same
    number are the same four bytes. *)
Theorem to_uint32_faithful (p q : list Z) :
  is_bytes 4 p -> is_bytes 4 q ->
  0 <= IPv4.to_uint32 p < 2 ^ 32 /\
  (IPv4.to_uint32 p = IPv4.to_uint32 q -> p = q).
Proof.
  intros Hp Hq.
  apply HelperFacts.bytes4 in Hp as (a & b & c & d & -> & Ha & Hb & Hc & Hd).
  apply HelperFacts.bytes4 in Hq as (a' & b' & c' & d' & -> & Ha' & Hb' & Hc' & Hd').
  rewrite !IPv4Facts.to_uint32_big_endian by lia.
  change (2 ^ 32) with 4294967296. change (2 ^ 24) with 16777216.
  change (2 ^ 16) with 65536. change (2 ^ 8) with 256.
  split; [lia |].
  intros H. assert (a = a' /\ b = b' /\ c = c' /\ d = d') as (-> & -> & -> & ->) by lia.
  reflexivity.
Qed.

(** X10 at [32.64.128.1], a line of the test's table. *)
Lemma to_uint32_faithful_example :
  0 <= IPv4.to_uint32 [32; 64; 128; 1] < 2 ^ 32 /\
  (IPv4.to_uint32 [32; 64; 128; 1] = IPv4.to_uint32 [32; 64; 128; 1] ->
   [32; 64; 128; 1] = [32; 64; 128; 1]).
Proof.
  apply (to_uint32_faithful [32; 64; 128; 1] [32; 64; 128; 1]);
    (split; [reflexivity | repeat constructor; lia]).
Defined.

(** X11: [get_u64] of the IPv6 test reads eight bytes as one big-endian
    number; the sums it forms in [std::uint64_t] never wrap, and the number
    determines the eight bytes. *)
Theorem get_u64_faithful (p q : list Z) :
  is_bytes 8 p -> is_bytes 8 q ->
  IPv6.get_u64 p =
    nth 0 p 0 * 2 ^ 56 + nth 1 p 0 * 2 ^ 48 + nth 2 p 0 * 2 ^ 40 +
    nth 3 p 0 * 2 ^ 32 + nth 4 p 0 * 2 ^ 24 + nth 5 p 0 * 2 ^ 16 +
    nth 6 p 0 * 2 ^ 8 + nth 7 p 0 /\
  0 <= IPv6.get_u64 p < 2 ^ 64 /\
  (IPv6.get_u64 p = IPv6.get_u64 q -> p = q).
Proof.
  intros Hp Hq. split; [| split].
  - apply HelperFacts.bytes8 in Hp
      as (b0 & b1 & b2 & b3 & b4 & b5 & b6 & b7 & -> & ?).
    rewrite HelperFacts.get_u64_sum by tauto. reflexivity.
  - unfold IPv6.get_u64. unfold IPv6.u64 at 1.
    apply Z.mod_pos_bound. reflexivity.
  - rewrite (HelperFacts.get_u64_base256 p Hp), (HelperFacts.get_u64_base256 q Hq).
    intros H. destruct Hp as [Lp Bp]. destruct Hq as [Lq Bq].
    apply (HelperFacts.base256_unique p q 0 0); [congruence | assumption | assumption | exact H].
Qed.

(** X11 at the low half of [::FFFF:1.2.3.4]. *)
Lemma get_u64_faithful_example :
  IPv6.get_u64 [0; 0; 255; 255; 1; 2; 3; 4] = 0x0000ffff01020304 /\
  0 <= IPv6.get_u64 [0; 0; 255; 255; 1; 2; 3; 4] < 2 ^ 64.
Proof.
  destruct (get_u64_faithful [0; 0; 255; 255; 1; 2; 3; 4]
              [0; 0; 255; 255; 1; 2; 3; 4]) as (H1 & H2 & _).
  - split; [reflexivity | repeat constructor; lia].
  - split; [reflexivity | repeat constructor; lia].
  - split; [rewrite H1; reflexivity | exact H2].
Defined.
